(** * gql-utils: the [Gql] client

    A shallow embedding of the module that defines [class Gql] (argument
    encoder, template tag, execution with cache, error aggregation and
    result shaping) and the proofs of the properties its specification
    states about it.

    - JavaScript strings are sequences of UTF-16 code units: lists of [N].
    - The regular expressions of the source are kept as data and run by a
      derivative matcher, proved correct against the language of a regular
      expression.
    - Values are the JSON-like ones plus [undefined]; functions, symbols,
      dates and class instances are left out.  A plain object is the list
      of its own enumerable properties in iteration order.
    - A promise is modelled by its outcome, [await] by sequencing; what the
      calls change (the content of the cache, the queries executed so far)
      is passed along as a [World].
    - The functions of [lodash], [graphql] and [sm-utils] and the formatter
      of errors are collaborators: the ones the client only calls are
      parameters, the small ones of [lodash] are written out. *)

From Stdlib Require Import NArith ZArith List String Ascii Bool Lia.
From Stdlib Require Import DecimalString.
From stdpp Require Import base option list gmap.

Set Default Proof Using "Type".
Set Warnings "-register-all,-abstract-large-number".

Local Open Scope list_scope.

(** ** JavaScript strings *)

Abbreviation char := N (only parsing).
Abbreviation jsstring := (list N) (only parsing).

(** An ASCII literal of this file read as a JavaScript string. *)
Definition js (s : string) : jsstring :=
  map N_of_ascii (list_ascii_of_string s).

Definition chr (a : ascii) : char := N_of_ascii a.

(** [Array.prototype.join] on strings. *)
Fixpoint join (sep : jsstring) (l : list jsstring) : jsstring :=
  match l with
  | [] => []
  | [x] => x
  | x :: rest => x ++ sep ++ join sep rest
  end.

Definition in_range (lo hi c : char) : bool := (lo <=? c)%N && (c <=? hi)%N.

(** The class [\s] of ECMAScript: WhiteSpace and LineTerminator code units. *)
Definition is_space (c : char) : bool :=
  (in_range 9 13 c || (c =? 32) || (c =? 160) || (c =? 5760)
   || in_range 8192 8202 c || (c =? 8232) || (c =? 8233)
   || (c =? 8239) || (c =? 8287) || (c =? 12288) || (c =? 65279))%N.

Definition is_upper (c : char) : bool := in_range 65%N 90%N c.
Definition is_lower (c : char) : bool := in_range 97%N 122%N c.
Definition is_digit (c : char) : bool := in_range 48%N 57%N c.

(** ** Regular expressions *)

Module Regex.

Inductive regex : Type :=
| Void
| Eps
| Class (p : char -> bool)
| Seq (r1 r2 : regex)
| Alt (r1 r2 : regex)
| Star (r : regex).

Definition Chr (a : ascii) : regex := Class (N.eqb (chr a)).
Definition Plus (r : regex) : regex := Seq r (Star r).
Definition AnyStar : regex := Star (Class (fun _ => true)).

Fixpoint Lit (s : jsstring) : regex :=
  match s with
  | [] => Eps
  | c :: rest => Seq (Class (N.eqb c)) (Lit rest)
  end.

(** The words of a regular expression. *)
Inductive lang : regex -> jsstring -> Prop :=
| L_eps : lang Eps []
| L_class p c : p c = true -> lang (Class p) [c]
| L_seq r1 r2 s1 s2 : lang r1 s1 -> lang r2 s2 -> lang (Seq r1 r2) (s1 ++ s2)
| L_alt_l r1 r2 s : lang r1 s -> lang (Alt r1 r2) s
| L_alt_r r1 r2 s : lang r2 s -> lang (Alt r1 r2) s
| L_star_nil r : lang (Star r) []
| L_star_cons r s1 s2 : lang r s1 -> lang (Star r) s2 -> lang (Star r) (s1 ++ s2).

Fixpoint nullable (r : regex) : bool :=
  match r with
  | Void => false
  | Eps => true
  | Class _ => false
  | Seq r1 r2 => nullable r1 && nullable r2
  | Alt r1 r2 => nullable r1 || nullable r2
  | Star _ => true
  end.

(** Constructors that drop the dead branches of a derivative. *)
Definition mkSeq (r1 r2 : regex) : regex :=
  match r1 with
  | Void => Void
  | Eps => r2
  | _ => Seq r1 r2
  end.

Definition mkAlt (r1 r2 : regex) : regex :=
  match r1, r2 with
  | Void, _ => r2
  | _, Void => r1
  | _, _ => Alt r1 r2
  end.

Fixpoint deriv (c : char) (r : regex) : regex :=
  match r with
  | Void => Void
  | Eps => Void
  | Class p => if p c then Eps else Void
  | Seq r1 r2 =>
      mkAlt (mkSeq (deriv c r1) r2) (if nullable r1 then deriv c r2 else Void)
  | Alt r1 r2 => mkAlt (deriv c r1) (deriv c r2)
  | Star r1 => mkSeq (deriv c r1) (Star r1)
  end.

(** The whole of [s] is a word of [r]. *)
Fixpoint matches (r : regex) (s : jsstring) : bool :=
  match s with
  | [] => nullable r
  | c :: rest => matches (deriv c r) rest
  end.

(** One alternative of a pattern, with its anchors: [^] in front and [$]
    behind (no [m] flag: they stand for the two ends of the input). *)
Record alternative : Type := Alternative {
  at_start : bool;
  alt_body : regex;
  at_end : bool
}.

(** A pattern is the disjunction of its alternatives. *)
Definition pattern : Type := list alternative.

(** [RegExp.prototype.test]: some alternative matches somewhere in [s];
    an alternative that is not anchored at an end may leave any text at
    that end. *)
Definition alt_regex (a : alternative) : regex :=
  Seq (if at_start a then Eps else AnyStar)
      (Seq (alt_body a) (if at_end a then Eps else AnyStar)).

Definition test (p : pattern) (s : jsstring) : bool :=
  existsb (fun a => matches (alt_regex a) s) p.

End Regex.

Import Regex.

Arguments js s%_string_scope.
Arguments chr a%_char_scope.
Arguments Chr a%_char_scope.

(** ** JavaScript values *)

(** The numbers of the model: [NInt z] is the double that is the whole
    number [z], of absolute value below [10^21] (those are written in plain
    decimal by [Number::toString]); [NaN] and the two infinities.  The other
    doubles are left out, and [-0] is not told from [0]. *)
Inductive number : Type :=
| NInt (z : Z)
| NaN
| Infinity (negative : bool).

(** The values the client handles: primitives, arrays and plain objects.
    A plain object lists its own enumerable properties in iteration order. *)
Inductive value : Type :=
| VUndefined
| VNull
| VBool (b : bool)
| VNum (n : number)
| VStr (s : jsstring)
| VArr (items : list value)
| VObj (props : list (jsstring * value)).

Abbreviation object := (list (list N * value)) (only parsing).

(** [Number::toString]. *)
Definition number_to_string (n : number) : jsstring :=
  match n with
  | NInt z => js (NilZero.string_of_int (Z.to_int z))
  | NaN => js "NaN"
  | Infinity false => js "Infinity"
  | Infinity true => js "-Infinity"
  end.

(** [ToBoolean]. *)
Definition truthy (v : value) : bool :=
  match v with
  | VUndefined | VNull => false
  | VBool b => b
  | VNum (NInt z) => negb (z =? 0)%Z
  | VNum NaN => false
  | VNum (Infinity _) => true
  | VStr [] => false
  | VStr (_ :: _) => true
  | VArr _ | VObj _ => true
  end.

(** [ToString]; an array is joined with commas, its [null] and [undefined]
    items giving the empty string. *)
Fixpoint ToString (v : value) : jsstring :=
  match v with
  | VUndefined => js "undefined"
  | VNull => js "null"
  | VBool true => js "true"
  | VBool false => js "false"
  | VNum n => number_to_string n
  | VStr s => s
  | VArr items =>
      join (js ",")
        (map (fun x => match x with
                       | VUndefined | VNull => []
                       | _ => ToString x
                       end) items)
  | VObj _ => js "[object Object]"
  end.

(** [Array.prototype.join] on values. *)
Definition array_join (sep : jsstring) (items : list value) : jsstring :=
  join sep (map (fun x => match x with
                          | VUndefined | VNull => []
                          | _ => ToString x
                          end) items).

(** The decimal text of an array index. *)
Definition index_key (i : nat) : jsstring :=
  js (NilZero.string_of_uint (Nat.to_uint i)).

(** Own-property read, write and test of a plain object. *)
Definition obj_get {A : Type} (k : jsstring) (o : list (jsstring * A)) : option A :=
  snd <$> find (fun kv => bool_decide (fst kv = k)) o.

(** The number of a key that is an array index: a canonical decimal numeral
    below [2^32 - 1]. *)
Definition array_index (k : jsstring) : option N :=
  match k with
  | [] => None
  | c :: rest =>
      if forallb is_digit k && (negb (c =? 48)%N || bool_decide (rest = []))
      then let n := fold_left (fun n d => (10 * n + (d - 48))%N) k 0%N in
           if (n <? 4294967295)%N then Some n else None
      else None
  end.

(** The order of the own properties of an object: array indices first, by
    number, then the other keys as they were added. *)
Definition comes_before (k k' : jsstring) : bool :=
  match array_index k, array_index k' with
  | Some i, Some j => (i <? j)%N
  | Some _, None => true
  | None, _ => false
  end.

Fixpoint obj_add (k : jsstring) (v : value) (o : object) : object :=
  match o with
  | [] => [(k, v)]
  | (k', v') :: rest =>
      if comes_before k k' then (k, v) :: o else (k', v') :: obj_add k v rest
  end.

Fixpoint obj_replace (k : jsstring) (v : value) (o : object) : object :=
  match o with
  | [] => []
  | (k', v') :: rest =>
      if bool_decide (k' = k) then (k, v) :: rest else (k', v') :: obj_replace k v rest
  end.

(** [o[k] = v] *)
Definition obj_set (k : jsstring) (v : value) (o : object) : object :=
  match obj_get k o with
  | Some _ => obj_replace k v o
  | None => obj_add k v o
  end.

Definition obj_keys (o : object) : list jsstring := map fst o.

(** ** JSON.stringify *)

Definition hex_digit (n : N) : char :=
  if (n <? 10)%N then (48 + n)%N else (87 + n)%N.

(** [UnicodeEscape]: [\uXXXX] with lower-case hexadecimal digits. *)
Definition unicode_escape (c : char) : jsstring :=
  js "\u" ++ [hex_digit ((c / 4096) mod 16)%N; hex_digit ((c / 256) mod 16)%N;
              hex_digit ((c / 16) mod 16)%N; hex_digit (c mod 16)%N].

Definition is_high_surrogate (c : char) : bool := in_range 55296%N 56319%N c.
Definition is_low_surrogate (c : char) : bool := in_range 56320%N 57343%N c.

(** The characters between the quotes of [QuoteJSONString] (ECMAScript 2019
    and later): the short escapes, [\uXXXX] for the other control characters
    and for a surrogate that has no partner, everything else as it is. *)
Fixpoint quote_chars (s : jsstring) : jsstring :=
  match s with
  | [] => []
  | c :: rest =>
      if (c =? 8)%N then js "\b" ++ quote_chars rest
      else if (c =? 9)%N then js "\t" ++ quote_chars rest
      else if (c =? 10)%N then js "\n" ++ quote_chars rest
      else if (c =? 12)%N then js "\f" ++ quote_chars rest
      else if (c =? 13)%N then js "\r" ++ quote_chars rest
      else if (c =? 34)%N then [92; 34]%N ++ quote_chars rest
      else if (c =? 92)%N then [92; 92]%N ++ quote_chars rest
      else if (c <? 32)%N then unicode_escape c ++ quote_chars rest
      else if is_high_surrogate c then
        match rest with
        | d :: rest' =>
            if is_low_surrogate d then c :: d :: quote_chars rest'
            else unicode_escape c ++ quote_chars rest
        | [] => unicode_escape c
        end
      else if is_low_surrogate c then unicode_escape c ++ quote_chars rest
      else c :: quote_chars rest
  end.

Definition QuoteJSONString (s : jsstring) : jsstring :=
  [34%N] ++ quote_chars s ++ [34%N].

(** [JSON.stringify(v)] with no replacer and no indentation; [None] is the
    [undefined] it returns for [undefined]. *)
Fixpoint JSON_stringify (v : value) : option jsstring :=
  match v with
  | VUndefined => None
  | VNull => Some (js "null")
  | VBool true => Some (js "true")
  | VBool false => Some (js "false")
  | VNum (NInt z) => Some (number_to_string (NInt z))
  | VNum _ => Some (js "null")
  | VStr s => Some (QuoteJSONString s)
  | VArr items =>
      Some (js "[" ++
            join (js ",") (map (fun x => default (js "null") (JSON_stringify x)) items)
            ++ js "]")
  | VObj props =>
      Some (js "{" ++
            join (js ",")
              (omap (fun kv => (fun t => QuoteJSONString (fst kv) ++ js ":" ++ t)
                               <$> JSON_stringify (snd kv)) props)
            ++ js "}")
  end.

(** ** The argument encoder (lines 8-76) *)

Definition ONE_DAY : Z := 24 * 3600 * 1000.
Definition ENUM_PREFIX : jsstring := js "__ENUM__::".

Definition is_enum_char (c : char) : bool :=
  is_upper c || is_lower c || (c =? chr "_")%N.

(** [new RegExp(`^${ENUM_PREFIX}([A-Za-z_]+)$`)] *)
Definition ENUM_REGEX : pattern :=
  [Alternative true (Seq (Lit ENUM_PREFIX) (Plus (Class is_enum_char))) true].

(** [str.match(ENUM_REGEX)]: [null], or the match and its group.  The
    pattern is anchored at both ends and its group is all that follows the
    prefix, so the match is [str] and the group is [str] without the
    prefix. *)
Definition match_ENUM_REGEX (str : jsstring) : option (list jsstring) :=
  if test ENUM_REGEX str then Some [str; drop (length ENUM_PREFIX) str] else None.

Definition convertStrToGqlArg (str : jsstring) : jsstring :=
  let val := default [] (match_ENUM_REGEX str) !! 1%nat in
  match val with
  | Some (c :: v) => c :: v
  | _ => QuoteJSONString str
  end.

(** [None] is the [null] of JavaScript, which a template literal prints as
    [null]. *)
Definition template_text (t : option jsstring) : jsstring := default (js "null") t.

(** [isLength(obj.length)] of lodash: the own property [length] is a whole
    number from 0 to [Number.MAX_SAFE_INTEGER]. *)
Definition array_like_length (obj : object) : option nat :=
  match obj_get (js "length") obj with
  | Some (VNum (NInt z)) =>
      if (0 <=? z)%Z && (z <=? 9007199254740991)%Z then Some (Z.to_nat z) else None
  | _ => None
  end.

(** The keys and values the callback of [_.forEach(obj, ...)] is called
    with.  lodash iterates an object that has such a [length] like an array
    (as the documentation of [_.forEach] notes), over the indices below
    [length], and any other object over its own properties.  The values are
    taken here as encoded already; [missing] is the encoding of the
    [undefined] read at an index that is no property. *)
Definition _forEach_calls {A : Type} (missing : A) (length : option nat)
    (entries : list (jsstring * A)) : list (jsstring * A) :=
  match length with
  | Some n =>
      map (fun i => (index_key i, default missing (obj_get (index_key i) entries)))
          (seq 0 n)
  | None => entries
  end.

(** The body of [convertObjToGqlArg], over the encoder of the values. *)
Definition convertObjToGqlArg_with (enc : value -> option jsstring) (obj : object)
  : jsstring :=
  let encoded := map (fun kv => (fst kv, enc (snd kv))) obj in
  join (js ", ")
    (map (fun kt => fst kt ++ js ": " ++ template_text (snd kt))
         (_forEach_calls None (array_like_length obj) encoded)).

Fixpoint convertToGqlArg (value : value) : option jsstring :=
  match value with
  | VUndefined | VNull => None
  | VNum n => Some (number_to_string n)
  | VStr s => Some (convertStrToGqlArg s)
  | VObj props => Some (js "{" ++ convertObjToGqlArg_with convertToGqlArg props ++ js "}")
  | VBool _ | VArr _ => JSON_stringify value
  end.

Definition convertObjToGqlArg (obj : object) : jsstring :=
  convertObjToGqlArg_with convertToGqlArg obj.

(** ** [Gql.enum], [Gql.toGqlArg] and [Gql.tag] (lines 202-259) *)

(** [val ? ENUM_PREFIX + val : val] *)
Definition enum (val : value) : value :=
  if truthy val then VStr (ENUM_PREFIX ++ ToString val) else val.

(** The [opts] of [toGqlArg]: an object with the three options, or an array,
    which [toGqlArg] reads as the keys to pick. *)
Record GqlArgOptions : Type := {
  pick : option (list jsstring);
  curlyBrackets : bool;
  roundBrackets : bool
}.

Inductive GqlArgOpts : Type :=
| OptsObject (o : GqlArgOptions)
| OptsArray (keys : list jsstring).

(** The default [opts = {}]. *)
Definition no_opts : GqlArgOpts :=
  OptsObject {| pick := None; curlyBrackets := false; roundBrackets := false |}.

(** [opts.roundBrackets]; an array has no such property. *)
Definition opts_roundBrackets (opts : GqlArgOpts) : bool :=
  match opts with
  | OptsObject o => roundBrackets o
  | OptsArray _ => false
  end.

(** [_.pick(object, paths)] of lodash, for paths that are own keys of the
    object or of no object (no deep paths, no inherited properties): the
    properties picked are set on a new object in the order of [paths]. *)
Definition _pick (obj : object) (paths : list jsstring) : object :=
  fold_left (fun res k => match obj_get k obj with
                          | Some v => obj_set k v res
                          | None => res
                          end) paths [].

(** The truth value of an encoded text; [None] is [null]. *)
Definition text_truthy (t : option jsstring) : bool :=
  match t with
  | Some (_ :: _) => true
  | _ => false
  end.

Definition NO_ARGS : jsstring := js "# no args <>" ++ [10%N].

Definition toGqlArg (arg : value) (opts : GqlArgOpts) : jsstring :=
  let '(gqlArg, opts) :=
    match arg with
    | VObj props =>
        let opts := match opts with
                    | OptsArray keys =>
                        {| pick := Some keys; curlyBrackets := false;
                           roundBrackets := false |}
                    | OptsObject o => o
                    end in
        let arg := match pick opts with
                   | Some paths => _pick props paths
                   | None => props
                   end in
        let gqlArg := convertObjToGqlArg arg in
        let gqlArg := if curlyBrackets opts then js "{" ++ gqlArg ++ js "}"
                      else gqlArg in
        (Some gqlArg, OptsObject opts)
    | _ => (convertToGqlArg arg, opts)
    end in
  let gqlArg :=
    if opts_roundBrackets opts
    then (if text_truthy gqlArg
          then Some (js "(" ++ template_text gqlArg ++ js ")")
          else Some (js " "))
    else gqlArg in
  if text_truthy gqlArg then template_text gqlArg else NO_ARGS.

(** [/(?::|\()\s*$/] *)
Definition ARGUMENT_SLOT : pattern :=
  [Alternative false (Seq (Alt (Chr ":") (Chr "(")) (Star (Class is_space))) true].

(** The loop of [tag] from index [i] on: [prev] is [strings[i - 1]],
    [strings] are the segments from [i] on and [args] the values from
    [i - 1] on; a value that is not there is [undefined]. *)
Fixpoint tag_loop (out prev : jsstring) (strings : list jsstring) (args : list value)
  : jsstring :=
  match strings with
  | [] => out
  | s :: rest =>
      let arg := default VUndefined (head args) in
      let out :=
        if test ARGUMENT_SLOT prev then out ++ toGqlArg arg no_opts
        else if truthy arg then
          match arg with
          | VStr a => out ++ a
          | VArr items => out ++ array_join (js " ") (List.filter truthy items)
          | _ => out
          end
        else out in
      let out := out ++ s in
      tag_loop out s rest (tail args)
  end.

(** [tag(strings, ...args)]; [None] is the [undefined] it returns when there
    is no segment at all. *)
Definition tag (strings : list jsstring) (args : list value) : option jsstring :=
  match strings with
  | [] => None
  | s0 :: rest => Some (tag_loop s0 s0 rest args)
  end.

(** ** Property access on values *)

(** The own enumerable string-keyed properties of a value, in the order of
    [Object.keys]: those of a plain object, the items of an array and the
    code units of a string under their indices, none for the other
    primitives. *)
Definition own_properties (v : value) : object :=
  match v with
  | VObj props => props
  | VArr items => imap (fun i x => (index_key i, x)) items
  | VStr s => imap (fun i c => (index_key i, VStr [c])) s
  | _ => []
  end.

Definition Object_keys (v : value) : list jsstring := obj_keys (own_properties v).

(** [v[k]] for a key [k]; [undefined] when there is no such property. *)
Definition get_property (v : value) (k : jsstring) : value :=
  default VUndefined (obj_get k (own_properties v)).

(** [k in v]: a [TypeError] ([None]) when [v] is not an object. *)
Definition has_property (k : jsstring) (v : value) : option bool :=
  match v with
  | VObj _ | VArr _ => Some (bool_decide (k ∈ Object_keys v))
  | _ => None
  end.

(** [_.isEmpty] of lodash. *)
Definition _isEmpty (v : value) : bool :=
  match v with
  | VArr [] | VStr [] | VObj [] => true
  | VArr (_ :: _) | VStr (_ :: _) | VObj (_ :: _) => false
  | _ => true
  end.

(** ** The client (lines 22-48 and 78-200) *)

(** One entry of the [fields] map of an error. *)
Record FieldError : Type := {
  message : jsstring;
  keyword : jsstring
}.

(** The response of the HTTP client of the remote path. *)
Record Response : Type := {
  statusCode : Z;
  body : jsstring
}.

(** [this.api]. *)
Record ApiConfig : Type := {
  endpoint : value;
  headers : value;
  cookies : value
}.

(** The options of [exec]: [{cache: {key, ttl}, variables, schemaName}];
    [None] is a property that is not given. *)
Record ExecOptions : Type := {
  cache_key : option jsstring;
  cache_ttl : option Z;
  variables : option value;
  schemaName : option jsstring
}.

(** The truth value of an optional string. *)
Definition given (s : option jsstring) : bool := text_truthy s.

Section Client.

(** The types of the GraphQL engine are not inspected by the client. *)
Context {Schema Document Ctx RawError : Type}.

(** What the formatter returns; [exec] reads its [fields] only, which may
    be missing. *)
Record FormattedError : Type := {
  fields : option (gmap jsstring FieldError)
}.

(** The result of the engine: [{data, errors}], [errors] may be missing. *)
Record ExecutionResult : Type := {
  data : value;
  errors : option (list RawError)
}.

(** The collaborators of one call: the HTTP client and JSON parser of
    [sm-utils], and [parse], [validate] and [execute] of [graphql]. *)
Record Collaborators : Type := {
  Connect_post : ApiConfig -> jsstring -> Response;
  Str_tryParseJson : jsstring -> value;
  parse : jsstring -> RawError + Document;
  validate : option Schema -> Document -> list RawError;
  execute : option Schema -> Document -> value -> Ctx -> value -> ExecutionResult
}.

(** The instance built by the constructor.  [cache] tells whether
    [opts.cache] was given; what the cache holds is part of the [World]. *)
Record Gql : Type := {
  api : option ApiConfig;
  schema : gmap jsstring Schema;
  defaultSchema : option Schema;
  validateGraphql : bool;
  formatError : RawError -> FormattedError;
  cache : bool
}.

(** What the calls change: the entries of the cache object (a value and its
    [ttl] under each key; [get] returns the value last [set], entries do not
    expire here), and the query texts handed to the remote or local path so
    far, latest first. *)
Record World : Type := {
  store : gmap jsstring (value * Z);
  executed : list jsstring
}.

Inductive error : Type :=
| ApiError (msg : jsstring) (errs : option value)
| GraphqlError (msg : jsstring) (errs : list RawError)
    (flds : gmap jsstring FieldError)
| TypeError.

(** A settled promise. *)
Inductive outcome (A : Type) : Type :=
| Resolved (a : A)
| Rejected (e : error).
Arguments Resolved {A} a.
Arguments Rejected {A} e.

(** The function [graphql] of lines 22-48, with [rootValue = null]. *)
Definition graphql (env : Collaborators) (schema : option Schema) (query : jsstring)
    (context : Ctx) (variables : value) (validateGraphql : bool) : ExecutionResult :=
  match parse env query with
  | inl syntaxError => {| data := VUndefined; errors := Some [syntaxError] |}
  | inr document =>
      let validationErrors :=
        if validateGraphql then validate env schema document else [] in
      if (0 <? length validationErrors)%nat
      then {| data := VUndefined; errors := Some validationErrors |}
      else execute env schema document VNull context variables
  end.

Definition _execApi (this : Gql) (env : Collaborators) (api : ApiConfig)
    (query : jsstring) : outcome value :=
  let response := Connect_post env api query in
  let result := Str_tryParseJson env (body response) in
  if negb (statusCode response =? 200)%Z then
    let errs := if truthy result then get_property result (js "errors") else result in
    let errs := if truthy errs then errs else VStr (js "Unknown error") in
    Rejected (ApiError (number_to_string (NInt (statusCode response)) ++ js ", "
                        ++ ToString errs) None)
  else if negb (truthy result) then
    Rejected (ApiError (js "Invalid result from api") None)
  else if negb (_isEmpty (get_property result (js "errors"))) then
    Rejected (ApiError (js "Errors in api response")
                (Some (get_property result (js "errors"))))
  else Resolved result.

(** [Object.assign(fields, source)]; a missing source is skipped. *)
Definition Object_assign (target : gmap jsstring FieldError)
    (source : option (gmap jsstring FieldError)) : gmap jsstring FieldError :=
  match source with
  | Some src => src ∪ target
  | None => target
  end.

Definition UNKNOWN_ERROR : gmap jsstring FieldError :=
  {[ js "global" := {| message := js "Unknown Error"; keyword := js "unknown" |} ]}.

Definition _execGraphql (this : Gql) (env : Collaborators) (query : jsstring)
    (context : Ctx) (variables : option value) (schemaName : option jsstring)
  : outcome value :=
  let variables := default (VObj []) variables in
  let schema := if given schemaName
                then schema this !! default [] schemaName
                else defaultSchema this in
  let result := graphql env schema query context variables (validateGraphql this) in
  match errors result with
  | None | Some [] => Resolved (data result)
  | Some errors =>
      let fields :=
        fold_left (fun target error =>
                     let error := formatError this error in
                     Object_assign target (fields error))
                  errors ∅ in
      let fields := if (size fields =? 0)%nat then UNKNOWN_ERROR else fields in
      Rejected (GraphqlError
                  (js "[schema:" ++ (if given schemaName then default [] schemaName
                                     else js "default")
                   ++ js "] Error in graphQL api")
                  errors fields)
  end.

(** [/^\s*query|mutation|subscription/] *)
Definition OPERATION_KEYWORD : pattern :=
  [Alternative true (Seq (Star (Class is_space)) (Lit (js "query"))) false;
   Alternative false (Lit (js "mutation")) false;
   Alternative false (Lit (js "subscription")) false].

Definition is_alnum (c : char) : bool := is_lower c || is_upper c || is_digit c.

(** [/^\s*[a-zA-Z0-9]/] *)
Definition SELECTION_START : pattern :=
  [Alternative true (Seq (Star (Class is_space)) (Class is_alnum)) false].

Definition exec (this : Gql) (env : Collaborators) (w : World) (query : jsstring)
    (context : Ctx) (opts : ExecOptions) : outcome value * World :=
  let cacheKey := cache_key opts in
  let ttl := default ONE_DAY (cache_ttl opts) in
  let cached :=
    if given cacheKey && cache this
    then default VUndefined (fst <$> store w !! default [] cacheKey)
    else VUndefined in
  if truthy cached then (Resolved cached, w)
  else
    let query :=
      if negb (test OPERATION_KEYWORD query) && test SELECTION_START query
      then js "query { " ++ query ++ js " }"
      else query in
    let w := {| store := store w; executed := query :: executed w |} in
    let result :=
      match api this with
      | Some api => _execApi this env api query
      | None => _execGraphql this env query context (variables opts) (schemaName opts)
      end in
    match result with
    | Rejected e => (Rejected e, w)
    | Resolved result =>
        let w :=
          if given cacheKey && cache this
          then {| store := <[default [] cacheKey := (result, ttl)]> (store w);
                  executed := executed w |}
          else w in
        (Resolved result, w)
    end.

Definition getAll (this : Gql) (env : Collaborators) (w : World) (query : jsstring)
    (context : Ctx) (opts : ExecOptions) : outcome value * World :=
  exec this env w query context opts.

Definition get (this : Gql) (env : Collaborators) (w : World) (query : jsstring)
    (context : Ctx) (opts : ExecOptions) : outcome value * World :=
  let '(result, w) := exec this env w query context opts in
  match result with
  | Rejected e => (Rejected e, w)
  | Resolved result =>
      if negb (truthy result) then (Resolved result, w)
      else
        let keys := Object_keys result in
        if negb (length keys =? 1)%nat then (Resolved result, w)
        else
          let newResult := get_property result (default [] (keys !! 0%nat)) in
          if truthy newResult then
            match has_property (js "nodes") newResult with
            | None => (Rejected TypeError, w)
            | Some true =>
                if (length (Object_keys newResult) =? 1)%nat
                then (Resolved (get_property newResult (js "nodes")), w)
                else (Resolved newResult, w)
            | Some false => (Resolved newResult, w)
            end
          else (Resolved newResult, w)
  end.

End Client.

Arguments Resolved {RawError A} a.
Arguments Rejected {RawError A} e.
Arguments ApiError {RawError} msg errs.
Arguments TypeError {RawError}.
Arguments GraphqlError {RawError} msg errs flds.

(** ** The vocabulary of the specification *)

(** A text that ends in a colon or an opening parenthesis, followed by white
    space only. *)
Definition ends_in_colon_or_paren (s : jsstring) : Prop :=
  exists pre c ws, s = pre ++ c :: ws /\ (c = chr ":" \/ c = chr "(")
                   /\ Forall (fun c => is_space c = true) ws.

(** An identifier as [ENUM_REGEX] has it: one or more ASCII letters or
    underscores. *)
Definition enum_identifier (id : jsstring) : Prop :=
  id <> [] /\ Forall (fun c => is_enum_char c = true) id.

(** The text of one entry of an encoded mapping. *)
Definition encode_entry (kv : jsstring * value) : jsstring :=
  fst kv ++ js ": " ++ template_text (convertToGqlArg (snd kv)).

(** The encoding [toGqlArg] has computed when it comes to the round
    brackets (line 232): a mapping with its keys picked and its curly
    brackets, any other value as [convertToGqlArg] gives it. *)
Definition encoding (arg : value) (opts : GqlArgOpts) : option jsstring :=
  match arg with
  | VObj props =>
      let picked := match opts with
                    | OptsArray keys => _pick props keys
                    | OptsObject o => match pick o with
                                      | Some keys => _pick props keys
                                      | None => props
                                      end
                    end in
      let text := convertObjToGqlArg picked in
      Some (match opts with
            | OptsObject o => if curlyBrackets o then js "{" ++ text ++ js "}" else text
            | OptsArray _ => text
            end)
  | _ => convertToGqlArg arg
  end.

Definition round_opts : GqlArgOpts :=
  OptsObject {| pick := None; curlyBrackets := false; roundBrackets := true |}.

(** The text of a field fragment: a string as it is, the truthy entries of
    an array joined by one space, nothing for any other value. *)
Definition field_fragment (arg : value) : jsstring :=
  match arg with
  | VStr s => s
  | VArr items => join (js " ") (map ToString (List.filter truthy items))
  | _ => []
  end.

(** The text spliced in for a slot whose preceding segment is [prev]. *)
Definition spliced (prev : jsstring) (arg : value) : jsstring :=
  if test ARGUMENT_SLOT prev then toGqlArg arg no_opts else field_fragment arg.

(** The text without its leading white space. *)
Fixpoint skip_spaces (q : jsstring) : jsstring :=
  match q with
  | c :: rest => if is_space c then skip_spaces rest else q
  | [] => []
  end.

Fixpoint starts_with (p s : jsstring) : bool :=
  match p, s with
  | [], _ => true
  | c :: p', d :: s' => (c =? d)%N && starts_with p' s'
  | _ :: _, [] => false
  end.

Definition OPERATION_KEYWORDS : list jsstring :=
  [js "query"; js "mutation"; js "subscription"].

(** The text starts, after optional white space, with an operation
    keyword. *)
Definition starts_with_operation_keyword (q : jsstring) : bool :=
  existsb (fun kw => starts_with kw (skip_spaces q)) OPERATION_KEYWORDS.

(** The text begins, after optional white space, with a letter, a digit or
    an underscore. *)
Definition begins_with_identifier_character (q : jsstring) : bool :=
  match skip_spaces q with
  | c :: _ => is_lower c || is_upper c || is_digit c || (c =? chr "_")%N
  | [] => false
  end.

(** What the pattern of line 172 looks for: [query] after optional white
    space at the start, or [mutation] or [subscription] anywhere. *)
Definition mentions_operation_keyword (q : jsstring) : Prop :=
  (exists ws rest, q = ws ++ js "query" ++ rest
                   /\ Forall (fun c => is_space c = true) ws)
  \/ (exists before after, q = before ++ js "mutation" ++ after)
  \/ (exists before after, q = before ++ js "subscription" ++ after).

(** The text begins, after optional white space, with an ASCII letter or
    digit. *)
Definition starts_with_letter_or_digit (q : jsstring) : Prop :=
  exists ws c rest, q = ws ++ c :: rest
                    /\ Forall (fun c => is_space c = true) ws
                    /\ (is_lower c || is_upper c || is_digit c) = true.

(** A value that is not an object. *)
Definition is_primitive (v : value) : bool :=
  match v with
  | VArr _ | VObj _ => false
  | _ => true
  end.

Section ClientVocabulary.

Context {Schema Document Ctx RawError : Type}.
Implicit Types (this : @Gql Schema RawError)
  (env : @Collaborators Schema Document Ctx RawError) (w : World).

(** The query text [exec] hands to the remote or local path. *)
Definition normalized (query : jsstring) : jsstring :=
  if negb (test OPERATION_KEYWORD query) && test SELECTION_START query
  then js "query { " ++ query ++ js " }"
  else query.

(** What [exec] reads from the cache; [undefined] when it does not ask. *)
Definition cache_lookup this w (opts : ExecOptions) : value :=
  if given (cache_key opts) && cache this
  then default VUndefined (fst <$> store w !! default [] (cache_key opts))
  else VUndefined.

(** The execution behind the cache: the remote path of a client with an
    [api], the local path of the others. *)
Definition underlying this env (query : jsstring) (context : Ctx)
    (opts : ExecOptions) : outcome value :=
  match api this with
  | Some api => _execApi this env api query
  | None => _execGraphql this env query context (variables opts) (schemaName opts)
  end.

(** The result of the engine on the local path. *)
Definition local_result this env (query : jsstring) (context : Ctx)
    (variables : option value) (schemaName : option jsstring) : ExecutionResult :=
  graphql env
    (if given schemaName then schema this !! default [] schemaName
     else defaultSchema this)
    query context (default (VObj []) variables) (validateGraphql this).

(** The entry a raw error has for a key in the fields of its formatted
    error. *)
Definition contributes this (e : RawError) (k : jsstring) : option FieldError :=
  fields (formatError this e) ≫= (fun f => f !! k).

(** Last write wins: the entry of the last raw error that has one. *)
Definition last_write this (errs : list RawError) (k : jsstring) : option FieldError :=
  last (omap (fun e => contributes this e k) errs).

End ClientVocabulary.

(** ** Clients and collaborators of the examples *)

(** An engine that parses every text and answers [result]; an endpoint that
    answers with status 200 and a body the parser reads as [parsed]. *)
Definition example_env (result : @ExecutionResult (list N))
    (parsed : value) : @Collaborators unit unit unit (list N) :=
  {| Connect_post := fun _ _ => {| statusCode := 200; body := [] |};
     Str_tryParseJson := fun _ => parsed;
     parse := fun _ => inr tt;
     validate := fun _ _ => [];
     execute := fun _ _ _ _ _ => result |}.

(** A client of the local path; its formatter gives the fields [fmt]. *)
Definition local_client (fmt : list N -> option (gmap (list N) FieldError))
    (cache : bool) : @Gql unit (list N) :=
  {| api := None; schema := ∅; defaultSchema := Some tt; validateGraphql := false;
     formatError := fun e => {| fields := fmt e |}; cache := cache |}.

Definition no_fields (e : list N) : option (gmap (list N) FieldError) := None.

Definition empty_world : World := {| store := ∅; executed := [] |}.

Definition exec_options (key : option jsstring) : ExecOptions :=
  {| cache_key := key; cache_ttl := None; variables := None; schemaName := None |}.

Definition user_data : value := VObj [(js "user", VObj [(js "id", VNum (NInt 1))])].

Definition resolves_with (data : value) : @ExecutionResult (list N) :=
  {| data := data; errors := None |}.

Definition fails_with (errs : list (list N)) : @ExecutionResult (list N) :=
  {| data := VNull; errors := Some errs |}.

Definition email_error : FieldError :=
  {| message := js "Email is taken"; keyword := js "unique" |}.

(** A formatter that has a field for the raw error [email] only. *)
Definition email_fields (e : list N) : option (gmap (list N) FieldError) :=
  if bool_decide (e = js "email") then Some {[ js "email" := email_error ]} else None.


(** ** Reading an argument text back *)

(** The value of a lower-case hexadecimal digit. *)
Definition hex_value (c : char) : option N :=
  if in_range 48%N 57%N c then Some (c - 48)%N
  else if in_range 97%N 102%N c then Some (c - 87)%N
  else None.

(** The characters between the quotes of a string literal read back: an
    escape gives its character, a quote or a control character that is not
    escaped is refused. *)
Fixpoint unquote_chars (s : jsstring) : option jsstring :=
  match s with
  | [] => Some []
  | c :: rest =>
      if (c =? 92)%N then
        match rest with
        | e :: rest' =>
            if (e =? 98)%N then cons 8%N <$> unquote_chars rest'
            else if (e =? 116)%N then cons 9%N <$> unquote_chars rest'
            else if (e =? 110)%N then cons 10%N <$> unquote_chars rest'
            else if (e =? 102)%N then cons 12%N <$> unquote_chars rest'
            else if (e =? 114)%N then cons 13%N <$> unquote_chars rest'
            else if (e =? 34)%N then cons 34%N <$> unquote_chars rest'
            else if (e =? 92)%N then cons 92%N <$> unquote_chars rest'
            else if (e =? 117)%N then
              match rest' with
              | h3 :: h2 :: h1 :: h0 :: rest'' =>
                  match hex_value h3, hex_value h2, hex_value h1, hex_value h0 with
                  | Some d3, Some d2, Some d1, Some d0 =>
                      cons (4096 * d3 + 256 * d2 + 16 * d1 + d0)%N
                        <$> unquote_chars rest''
                  | _, _, _, _ => None
                  end
              | _ => None
              end
            else None
        | [] => None
        end
      else if (c =? 34)%N || (c <? 32)%N then None
      else cons c <$> unquote_chars rest
  end.

(** The string an argument text stands for: a literal between quotes is
    read back, a bare word of letters and underscores is an enum and stands
    for the sentinel string. *)
Definition read_string_argument (text : jsstring) : option jsstring :=
  match text with
  | [] => None
  | c :: rest =>
      if (c =? 34)%N then
        match reverse rest with
        | q :: body => if (q =? 34)%N then unquote_chars (reverse body) else None
        | [] => None
        end
      else if forallb is_enum_char text then Some (ENUM_PREFIX ++ text)
      else None
  end.

Definition curly_opts : GqlArgOpts :=
  OptsObject {| pick := None; curlyBrackets := true; roundBrackets := false |}.


(** ** More clients and collaborators of the examples *)

(** A client of the remote path. *)
Definition remote_client (cache : bool) : @Gql unit (list N) :=
  {| api := Some {| endpoint := VStr (js "http://localhost/api");
                    headers := VObj []; cookies := VObj [] |};
     schema := ∅; defaultSchema := None; validateGraphql := false;
     formatError := fun e => {| fields := None |}; cache := cache |}.

(** An endpoint that answers with [status] and a body the parser reads as
    [parsed]; its engine is never asked. *)
Definition remote_env (status : Z) (parsed : value)
  : @Collaborators unit unit unit (list N) :=
  {| Connect_post := fun _ _ => {| statusCode := status; body := [] |};
     Str_tryParseJson := fun _ => parsed;
     parse := fun _ => inr tt;
     validate := fun _ _ => [];
     execute := fun _ _ _ _ _ => {| data := VUndefined; errors := None |} |}.

(** An engine that refuses every text with the syntax error [e]. *)
Definition syntax_error_env (e : list N) : @Collaborators unit unit unit (list N) :=
  {| Connect_post := fun _ _ => {| statusCode := 200; body := [] |};
     Str_tryParseJson := fun _ => VNull;
     parse := fun _ => inl e;
     validate := fun _ _ => [];
     execute := fun _ _ _ _ _ => {| data := VUndefined; errors := None |} |}.

(** An engine whose validation finds [errs] and whose execution answers
    [result]. *)
Definition validating_env (errs : list (list N)) (result : @ExecutionResult (list N))
  : @Collaborators unit unit unit (list N) :=
  {| Connect_post := fun _ _ => {| statusCode := 200; body := [] |};
     Str_tryParseJson := fun _ => VNull;
     parse := fun _ => inr tt;
     validate := fun _ _ => errs;
     execute := fun _ _ _ _ _ => result |}.

(** The text of the message of a [GraphqlError]. *)
Definition graphql_error_message (schemaName : option jsstring) : jsstring :=
  js "[schema:" ++ (if given schemaName then default [] schemaName else js "default")
  ++ js "] Error in graphQL api".

(** A cache that holds [user_data] under the key [k]. *)
Definition cached_world : World :=
  {| store := {[ js "k" := (user_data, 1000%Z) ]}; executed := [] |}.

Definition example_api : ApiConfig :=
  {| endpoint := VStr (js "http://localhost/api"); headers := VObj [];
     cookies := VObj [] |}.

(** ** The constructor (lines 82-101) *)

(** [_.defaults] on one property: the default is taken when the property is
    missing or [undefined]; [null] and every other value are kept. *)
Definition defined_or (d : value) (given : option value) : value :=
  match given with
  | None | Some VUndefined => d
  | Some v => v
  end.

(** [_.defaults(opts.api, {endpoint: null, headers: {}, cookies: {}})], read
    at the three properties the client uses. *)
Definition _defaults_api (api : object) : ApiConfig :=
  {| endpoint := defined_or VNull (obj_get (js "endpoint") api);
     headers := defined_or (VObj []) (obj_get (js "headers") api);
     cookies := defined_or (VObj []) (obj_get (js "cookies") api) |}.

Section Constructor.

Context {Schema RawError Config : Type}.

(** The options of the constructor: [api], [cache], [validateGraphql] and
    [formatError], and the rest, which is for the schema compiler.  For
    [cache] and [validateGraphql] the truth value is what is read. *)
Record GqlOptions : Type := {
  opts_api : option object;
  opts_cache : bool;
  opts_validateGraphql : bool;
  opts_formatError : option (RawError -> @FormattedError);
  opts_config : Config
}.

(** [constructor(opts)].  [makeSchemaFromConfig] is the schema compiler of
    [./makeSchemaFrom] (its schemas and default schema; the [pubsub] it also
    returns is not read by the methods modelled here) and [formatError] the
    formatter of [./errors].  With [opts.api] the properties of the local
    path are not set; the record holds the formatter of [./errors] and no
    schema there, which no method reads on the remote path. *)
Definition Gql_constructor
    (makeSchemaFromConfig : GqlOptions -> gmap jsstring Schema * option Schema)
    (formatError : RawError -> @FormattedError) (opts : GqlOptions)
  : @Gql Schema RawError :=
  match opts_api opts with
  | Some api =>
      {| api := Some (_defaults_api api); schema := ∅; defaultSchema := None;
         validateGraphql := false; formatError := formatError;
         cache := opts_cache opts |}
  | None =>
      let '(schema, defaultSchema) := makeSchemaFromConfig opts in
      {| api := None; schema := schema; defaultSchema := defaultSchema;
         validateGraphql := opts_validateGraphql opts || false;
         formatError := default formatError (opts_formatError opts);
         cache := opts_cache opts |}
  end.

End Constructor.

Arguments GqlOptions : clear implicits.

(** Options that name an endpoint and also configure validation. *)
Definition remote_options : GqlOptions (list N) unit :=
  {| opts_api := Some [(js "endpoint", VStr (js "http://localhost/api"));
                       (js "headers", VUndefined)];
     opts_cache := false; opts_validateGraphql := true;
     opts_formatError := Some (fun e => {| fields := email_fields e |});
     opts_config := tt |}.

(** *** Correctness of the matcher *)

Section RegexFacts.

Lemma lang_void_inv s : ~ lang Void s.
Proof. inversion 1. Qed.

Lemma lang_eps_inv s : lang Eps s -> s = [].
Proof. by inversion 1. Qed.

Lemma lang_class_inv p s : lang (Class p) s -> exists c, s = [c] /\ p c = true.
Proof. inversion 1; subst; eauto. Qed.

Lemma lang_seq_inv r1 r2 s :
  lang (Seq r1 r2) s -> exists s1 s2, s = s1 ++ s2 /\ lang r1 s1 /\ lang r2 s2.
Proof. inversion 1; subst; eauto. Qed.

Lemma lang_alt_inv r1 r2 s : lang (Alt r1 r2) s -> lang r1 s \/ lang r2 s.
Proof. inversion 1; subst; auto. Qed.

Lemma nullable_spec r : nullable r = true <-> lang r [].
Proof.
  induction r as [| |p|r1 IH1 r2 IH2|r1 IH1 r2 IH2|r IH]; simpl.
  - split; [discriminate | intros H; by apply lang_void_inv in H].
  - split; [intros _; constructor | done].
  - split; [discriminate | intros H].
    apply lang_class_inv in H as (c & Hc & _). discriminate.
  - rewrite andb_true_iff, IH1, IH2. split.
    + intros [H1 H2]. by apply (L_seq r1 r2 [] []).
    + intros H. apply lang_seq_inv in H as (s1 & s2 & Hs & H1 & H2).
      symmetry in Hs. apply app_eq_nil in Hs as [-> ->]. done.
  - rewrite orb_true_iff, IH1, IH2. split.
    + intros [H|H]; [by apply L_alt_l | by apply L_alt_r].
    + apply lang_alt_inv.
  - split; [intros _; constructor | done].
Qed.

Lemma mkSeq_spec r1 r2 s : lang (mkSeq r1 r2) s <-> lang (Seq r1 r2) s.
Proof.
  destruct r1; simpl; try done.
  - split; [intros H; by apply lang_void_inv in H |].
    intros H. apply lang_seq_inv in H as (s1 & s2 & _ & H1 & _).
    by apply lang_void_inv in H1.
  - split.
    + intros H. by apply (L_seq Eps r2 [] s); [constructor |].
    + intros H. apply lang_seq_inv in H as (s1 & s2 & -> & H1 & H2).
      apply lang_eps_inv in H1 as ->. done.
Qed.

Lemma mkAlt_spec r1 r2 s : lang (mkAlt r1 r2) s <-> lang (Alt r1 r2) s.
Proof.
  assert (Hl : forall r, lang r s <-> lang (Alt Void r) s).
  { intros r. split; [by apply L_alt_r |].
    intros H. apply lang_alt_inv in H as [H|H]; [by apply lang_void_inv in H | done]. }
  assert (Hr : forall r, lang r s <-> lang (Alt r Void) s).
  { intros r. split; [by apply L_alt_l |].
    intros H. apply lang_alt_inv in H as [H|H]; [done | by apply lang_void_inv in H]. }
  destruct r1; simpl; try apply Hl; destruct r2; simpl; try apply Hr; done.
Qed.

(** A word of [Star r] that starts with [c] starts with a word of [r]
    that starts with [c]. *)
Lemma lang_star_cons_inv r c s :
  lang (Star r) (c :: s) ->
  exists s1 s2, s = s1 ++ s2 /\ lang r (c :: s1) /\ lang (Star r) s2.
Proof.
  intros H. remember (Star r) as r' eqn:Hr. remember (c :: s) as w eqn:Hw.
  revert Hr Hw.
  induction H as [| | | | | |r0 s1 s2 H1 _ H2 IH2]; try discriminate.
  intros [= ->] Hw. destruct s1 as [|c1 s1]; simpl in Hw.
  - by apply IH2.
  - injection Hw as -> <-. eauto.
Qed.

Lemma deriv_spec r : forall c s, lang (deriv c r) s <-> lang r (c :: s).
Proof.
  induction r as [| |p|r1 IH1 r2 IH2|r1 IH1 r2 IH2|r IH]; intros c s; simpl.
  - split; intros H; by apply lang_void_inv in H.
  - split; intros H; [by apply lang_void_inv in H | by apply lang_eps_inv in H].
  - destruct (p c) eqn:Hp; split; intros H.
    + apply lang_eps_inv in H as ->. by constructor.
    + apply lang_class_inv in H as (c' & [= -> ->] & _). constructor.
    + by apply lang_void_inv in H.
    + apply lang_class_inv in H as (c' & [= -> ->] & Hc). congruence.
  - rewrite mkAlt_spec. split; intros H.
    + apply lang_alt_inv in H as [H|H].
      * apply mkSeq_spec, lang_seq_inv in H as (s1 & s2 & -> & H1 & H2).
        apply IH1 in H1. by apply (L_seq r1 r2 (c :: s1) s2).
      * destruct (nullable r1) eqn:Hn; [| by apply lang_void_inv in H].
        apply nullable_spec in Hn. apply IH2 in H.
        by apply (L_seq r1 r2 [] (c :: s)).
    + apply lang_seq_inv in H as (s1 & s2 & Hs & H1 & H2).
      destruct s1 as [|c1 s1]; simpl in Hs.
      * subst s2. apply L_alt_r. apply nullable_spec in H1. rewrite H1.
        by apply IH2.
      * injection Hs as <- ->. apply L_alt_l, mkSeq_spec.
        apply L_seq; [by apply IH1 | done].
  - rewrite mkAlt_spec. split; intros H.
    + apply lang_alt_inv in H as [H|H];
        [apply L_alt_l; by apply IH1 | apply L_alt_r; by apply IH2].
    + apply lang_alt_inv in H as [H|H];
        [apply L_alt_l; by apply IH1 | apply L_alt_r; by apply IH2].
  - rewrite mkSeq_spec. split; intros H.
    + apply lang_seq_inv in H as (s1 & s2 & -> & H1 & H2).
      apply IH in H1. by apply (L_star_cons r (c :: s1) s2).
    + apply lang_star_cons_inv in H as (s1 & s2 & -> & H1 & H2).
      apply L_seq; [by apply IH | done].
Qed.

Theorem matches_spec r s : matches r s = true <-> lang r s.
Proof.
  revert r. induction s as [|c s IH]; intros r; simpl.
  - apply nullable_spec.
  - rewrite IH. apply deriv_spec.
Qed.

End RegexFacts.

(** *** The words of the building blocks of the source's patterns *)

Section PatternFacts.

Lemma lang_lit s w : lang (Lit s) w <-> w = s.
Proof.
  revert w. induction s as [|c s IH]; intros w; simpl.
  - split; [apply lang_eps_inv | intros ->; constructor].
  - split.
    + intros H. apply lang_seq_inv in H as (s1 & s2 & -> & H1 & H2).
      apply lang_class_inv in H1 as (c' & -> & Hc). apply N.eqb_eq in Hc as <-.
      apply IH in H2 as ->. done.
    + intros ->. apply (L_seq _ _ [c] s); [| by apply IH].
      constructor. apply N.eqb_refl.
Qed.

Lemma lang_star_class p w :
  lang (Star (Class p)) w <-> Forall (fun c => p c = true) w.
Proof.
  split.
  - intros H. remember (Star (Class p)) as r eqn:Hr. revert Hr.
    induction H as [| | | | | |r0 s1 s2 H1 _ H2 IH2]; try discriminate.
    + intros _. constructor.
    + intros [= ->]. apply lang_class_inv in H1 as (c & -> & Hc).
      simpl. constructor; [done | by apply IH2].
  - induction 1 as [|c w Hc _ IH]; [constructor |].
    apply (L_star_cons _ [c] w); [by constructor | done].
Qed.

Lemma lang_anystar w : lang AnyStar w.
Proof. apply lang_star_class, Forall_forall. done. Qed.

Lemma lang_plus_class p w :
  lang (Plus (Class p)) w <-> w <> [] /\ Forall (fun c => p c = true) w.
Proof.
  unfold Plus. split.
  - intros H. apply lang_seq_inv in H as (s1 & s2 & -> & H1 & H2).
    apply lang_class_inv in H1 as (c & -> & Hc). apply lang_star_class in H2.
    split; [done | by constructor].
  - intros [Hne H]. destruct H as [|c w Hc H]; [done |].
    apply (L_seq _ _ [c] w); [by constructor | by apply lang_star_class].
Qed.

(** An alternative leaves any text at an end where it has no anchor. *)
Lemma alt_regex_spec a s :
  lang (alt_regex a) s <->
  exists pre w post, s = pre ++ w ++ post /\ lang (alt_body a) w
                     /\ (at_start a = true -> pre = [])
                     /\ (at_end a = true -> post = []).
Proof.
  unfold alt_regex. split.
  - intros H. apply lang_seq_inv in H as (pre & s' & -> & Hpre & H).
    apply lang_seq_inv in H as (w & post & -> & Hw & Hpost).
    exists pre, w, post. repeat split; [done | |].
    + intros Ha. rewrite Ha in Hpre. by apply lang_eps_inv.
    + intros Ha. rewrite Ha in Hpost. by apply lang_eps_inv.
  - intros (pre & w & post & -> & Hw & Hs & He).
    apply L_seq; [| apply L_seq; [done |]].
    + destruct (at_start a); [rewrite Hs by done; constructor | apply lang_anystar].
    + destruct (at_end a); [rewrite He by done; constructor | apply lang_anystar].
Qed.

Lemma test_spec p s :
  test p s = true <->
  exists a pre w post, In a p /\ s = pre ++ w ++ post /\ lang (alt_body a) w
                       /\ (at_start a = true -> pre = [])
                       /\ (at_end a = true -> post = []).
Proof.
  unfold test. rewrite existsb_exists. split.
  - intros (a & Ha & H). apply matches_spec, alt_regex_spec in H.
    destruct H as (pre & w & post & H). exists a, pre, w, post. tauto.
  - intros (a & pre & w & post & Ha & H). exists a. split; [done |].
    apply matches_spec, alt_regex_spec. exists pre, w, post. tauto.
Qed.

(** [ENUM_REGEX] accepts the prefix followed by one or more letters or
    underscores, and nothing else. *)
Lemma test_ENUM_REGEX s :
  test ENUM_REGEX s = true <->
  exists id, s = ENUM_PREFIX ++ id /\ id <> []
             /\ Forall (fun c => is_enum_char c = true) id.
Proof.
  rewrite test_spec. split.
  - intros (a & pre & w & post & Ha & -> & Hw & Hs & He).
    destruct Ha as [<-|[]]. cbn [at_start at_end alt_body] in *.
    rewrite Hs, He by done.
    apply lang_seq_inv in Hw as (s1 & s2 & -> & H1 & H2).
    apply lang_lit in H1 as ->. apply lang_plus_class in H2 as [Hne H2].
    exists s2. by rewrite app_nil_r.
  - intros (id & -> & Hne & Hid).
    exists (Alternative true (Seq (Lit ENUM_PREFIX) (Plus (Class is_enum_char))) true),
      [], (ENUM_PREFIX ++ id), [].
    cbn [at_start at_end alt_body app]. rewrite app_nil_r.
    split; [by left |]. split; [done |]. split; [| done].
    apply L_seq; [by apply lang_lit | by apply lang_plus_class].
Qed.

(** [ARGUMENT_SLOT] accepts exactly the texts that end in a colon or an
    opening parenthesis followed by white space only. *)
Lemma test_ARGUMENT_SLOT s :
  test ARGUMENT_SLOT s = true <-> ends_in_colon_or_paren s.
Proof.
  rewrite test_spec. unfold ends_in_colon_or_paren. split.
  - intros (a & pre & w & post & Ha & -> & Hw & _ & He).
    destruct Ha as [<-|[]]. cbn [at_start at_end alt_body] in *.
    rewrite He by done.
    apply lang_seq_inv in Hw as (s1 & ws & -> & H1 & H2).
    apply lang_star_class in H2.
    exists pre. apply lang_alt_inv in H1 as [H1|H1];
      apply lang_class_inv in H1 as (c & -> & Hc); apply N.eqb_eq in Hc as <-;
      eexists _, ws; rewrite app_nil_r; cbn [app]; eauto.
  - intros (pre & c & ws & -> & Hc & Hws).
    eexists _, pre, (c :: ws), []. split; [by left |].
    cbn [at_start at_end alt_body]. rewrite app_nil_r.
    split; [done |]. split; [| done].
    apply (L_seq _ _ [c] ws); [| by apply lang_star_class].
    destruct Hc as [-> | ->]; [apply L_alt_l | apply L_alt_r];
      constructor; apply N.eqb_refl.
Qed.

End PatternFacts.

(** ** The argument encoder *)

Section Encoder.

Lemma match_ENUM_REGEX_group s id :
  s = ENUM_PREFIX ++ id -> enum_identifier id -> convertStrToGqlArg s = id.
Proof.
  intros -> [Hne Hid]. unfold convertStrToGqlArg, match_ENUM_REGEX.
  assert (Ht : test ENUM_REGEX (ENUM_PREFIX ++ id) = true).
  { apply test_ENUM_REGEX. by exists id. }
  rewrite Ht. cbn [default lookup list_lookup].
  rewrite drop_app_length. by destruct id.
Qed.

Lemma match_ENUM_REGEX_none s :
  (~ exists id, s = ENUM_PREFIX ++ id /\ enum_identifier id) ->
  convertStrToGqlArg s = QuoteJSONString s.
Proof.
  intros Hno. unfold convertStrToGqlArg, match_ENUM_REGEX.
  destruct (test ENUM_REGEX s) eqn:Ht; [| done].
  apply test_ENUM_REGEX in Ht as (id & -> & Hne & Hid).
  destruct Hno. by exists id.
Qed.

(** The escapes of a quoted string: a quote, a backslash, a line feed and
    the control character 1 after an [a]. *)
Example QuoteJSONString_escapes :
  QuoteJSONString ([97; 34; 92; 10; 1]%N)
  = [34; 97; 92; 34; 92; 92; 92; 110]%N ++ js "\u0001" ++ [34%N].
Proof. reflexivity. Qed.

(** A text of printable ASCII characters other than the quote and the
    backslash is quoted as it is. *)
Lemma quote_chars_plain s :
  Forall (fun c => (in_range 32 126 c && negb (c =? 34) && negb (c =? 92))%N = true) s ->
  quote_chars s = s.
Proof.
  induction 1 as [|c s Hc _ IH]; [done |].
  cbn [quote_chars]. rewrite IH.
  apply andb_prop in Hc as [Hc H92]. apply andb_prop in Hc as [Hr H34].
  apply andb_prop in Hr as [Hlo Hhi].
  apply N.leb_le in Hlo. apply N.leb_le in Hhi.
  apply negb_true_iff in H34. apply negb_true_iff in H92.
  rewrite H34, H92.
  repeat match goal with
         | |- context [(c =? ?n)%N] =>
             destruct (N.eqb_spec c n) as [->|_]; [lia |]
         end.
  destruct (N.ltb_spec c 32); [lia |].
  unfold is_high_surrogate, is_low_surrogate, in_range.
  destruct (N.leb_spec 55296 c); [lia |]. cbn [andb].
  destruct (N.leb_spec 56320 c); [lia |]. reflexivity.
Qed.

(** The characters of the prefix need no escape. *)
Lemma quote_chars_ENUM_PREFIX s :
  quote_chars (ENUM_PREFIX ++ s) = ENUM_PREFIX ++ quote_chars s.
Proof. reflexivity. Qed.

(** Only [null] and [undefined] have no text: the [undefined] of
    [JSON.stringify] is never the result of the encoder. *)
Lemma convertToGqlArg_defined v :
  v <> VUndefined -> v <> VNull -> is_Some (convertToGqlArg v).
Proof. destruct v as [| |[]|[]| | |]; simpl; eauto; done. Qed.

(** C6: a string that is the enum prefix followed by an identifier is
    encoded as the bare identifier, every other string as its quoted JSON
    literal; [enum("ACTIVE")] is encoded as [ACTIVE]. *)
Theorem encode_string_enum_or_quoted (s : jsstring) :
  ((exists id, s = ENUM_PREFIX ++ id /\ enum_identifier id
               /\ convertToGqlArg (VStr s) = Some id
               /\ toGqlArg (VStr s) no_opts = id)
   \/ ((~ exists id, s = ENUM_PREFIX ++ id /\ enum_identifier id)
       /\ convertToGqlArg (VStr s) = Some (QuoteJSONString s)
       /\ toGqlArg (VStr s) no_opts = [34%N] ++ quote_chars s ++ [34%N]))
  /\ convertToGqlArg (enum (VStr (js "ACTIVE"))) = Some (js "ACTIVE")
  /\ convertToGqlArg (VStr (js "plain string"))
     = Some ([34%N] ++ js "plain string" ++ [34%N]).
Proof.
  split; [| split; reflexivity].
  destruct (test ENUM_REGEX s) eqn:Ht.
  - left. apply test_ENUM_REGEX in Ht as (id & -> & Hid).
    exists id. split; [done |]. split; [done |].
    unfold toGqlArg. cbn [convertToGqlArg no_opts opts_roundBrackets roundBrackets].
    rewrite (match_ENUM_REGEX_group _ id) by done.
    destruct Hid as [Hne _]. by destruct id.
  - right. assert (Hno : ~ exists id, s = ENUM_PREFIX ++ id /\ enum_identifier id).
    { intros (id & -> & Hid). apply not_true_iff_false in Ht. apply Ht.
      apply test_ENUM_REGEX. by exists id. }
    split; [done |].
    unfold toGqlArg. cbn [convertToGqlArg no_opts opts_roundBrackets roundBrackets].
    by rewrite (match_ENUM_REGEX_none s Hno).
Qed.

(** C10: a string that is the enum prefix followed by a suffix with a
    character other than an ASCII letter or an underscore keeps its prefix
    and is encoded as the quoted JSON literal of the whole string. *)
Theorem enum_suffix_with_other_character_is_quoted (suffix : jsstring) :
  Exists (fun c => is_enum_char c = false) suffix ->
  convertToGqlArg (VStr (ENUM_PREFIX ++ suffix))
  = Some ([34%N] ++ ENUM_PREFIX ++ quote_chars suffix ++ [34%N])
  /\ QuoteJSONString (ENUM_PREFIX ++ suffix)
     = [34%N] ++ ENUM_PREFIX ++ quote_chars suffix ++ [34%N]
  /\ toGqlArg (VStr (ENUM_PREFIX ++ suffix)) no_opts
     = [34%N] ++ ENUM_PREFIX ++ quote_chars suffix ++ [34%N].
Proof.
  intros Hex.
  assert (Hno : ~ exists id, ENUM_PREFIX ++ suffix = ENUM_PREFIX ++ id
                             /\ enum_identifier id).
  { intros (id & Heq & _ & Hid). apply app_inv_head in Heq as <-.
    apply Exists_exists in Hex as (c & Hin & Hc).
    rewrite Forall_forall in Hid. specialize (Hid c Hin). congruence. }
  assert (Hq : QuoteJSONString (ENUM_PREFIX ++ suffix)
               = [34%N] ++ ENUM_PREFIX ++ quote_chars suffix ++ [34%N]).
  { unfold QuoteJSONString. rewrite quote_chars_ENUM_PREFIX.
    by rewrite <- app_assoc. }
  split; [| split; [done |]].
  - cbn [convertToGqlArg]. by rewrite (match_ENUM_REGEX_none _ Hno), Hq.
  - unfold toGqlArg. cbn [convertToGqlArg no_opts opts_roundBrackets roundBrackets].
    rewrite (match_ENUM_REGEX_none _ Hno), Hq. reflexivity.
Qed.

Lemma enum_suffix_with_other_character_is_quoted_witness :
  Exists (fun c => is_enum_char c = false) (js "STATE1")
  /\ convertToGqlArg (enum (VStr (js "STATE1")))
     = Some ([34%N] ++ js "__ENUM__::STATE1" ++ [34%N]).
Proof.
  assert (H : Exists (fun c => is_enum_char c = false) (js "STATE1")).
  { repeat first [apply Exists_cons_hd; reflexivity | apply Exists_cons_tl]. }
  split; [exact H |].
  exact (proj1 (enum_suffix_with_other_character_is_quoted (js "STATE1") H)).
Defined.

(** A mapping that is not array-like is encoded entry by entry. *)
Lemma convertObjToGqlArg_entries obj :
  array_like_length obj = None ->
  convertObjToGqlArg obj = join (js ", ") (map encode_entry obj).
Proof.
  intros H. unfold convertObjToGqlArg, convertObjToGqlArg_with. rewrite H.
  cbn [_forEach_calls]. by rewrite map_map.
Qed.

Lemma join_not_nil sep before x after :
  x <> [] -> join sep (before ++ x :: after) <> [].
Proof.
  intros Hx. induction before as [|y before IH]; cbn [app join].
  - destruct after; [exact Hx |]. destruct x; [congruence | discriminate].
  - destruct (before ++ x :: after) eqn:E; [by destruct before |].
    rewrite <- E. intros H. apply app_eq_nil in H as [_ H].
    apply app_eq_nil in H as [_ H]. rewrite E in H. exact (IH H).
Qed.

(** C7, as the code has it: [null] and [undefined] under a key of an encoded
    mapping (one that is encoded key by key, not array-like) are written
    [null], also when the mapping is nested; given to [toGqlArg] themselves
    they have no encoding, and [toGqlArg] returns the placeholder comment,
    or one space when round brackets are asked for. *)
Theorem null_inside_mapping_and_at_top_level (v : value) (k : jsstring)
    (before after : object) (opts : GqlArgOpts) :
  v = VNull \/ v = VUndefined ->
  array_like_length (before ++ (k, v) :: after) = None ->
  encode_entry (k, v) = k ++ js ": null"
  /\ convertObjToGqlArg (before ++ (k, v) :: after)
     = join (js ", ") (map encode_entry before ++ (k ++ js ": null")
                                              :: map encode_entry after)
  /\ convertToGqlArg (VObj (before ++ (k, v) :: after))
     = Some (js "{" ++ join (js ", ") (map encode_entry before ++ (k ++ js ": null")
                                                   :: map encode_entry after)
             ++ js "}")
  /\ toGqlArg (VObj (before ++ (k, v) :: after)) no_opts
     = join (js ", ") (map encode_entry before ++ (k ++ js ": null")
                                              :: map encode_entry after)
  /\ convertToGqlArg v = None
  /\ toGqlArg v opts = (if opts_roundBrackets opts then js " " else NO_ARGS).
Proof.
  intros Hv Hlen.
  assert (He : encode_entry (k, v) = k ++ js ": null").
  { by destruct Hv as [-> | ->]. }
  assert (Ho : convertObjToGqlArg (before ++ (k, v) :: after)
               = join (js ", ") (map encode_entry before ++ (k ++ js ": null")
                                                        :: map encode_entry after)).
  { rewrite convertObjToGqlArg_entries, map_app by done. cbn [map]. by rewrite He. }
  split; [done |]. split; [done |]. split.
  { cbn [convertToGqlArg]. fold (convertObjToGqlArg (before ++ (k, v) :: after)).
    by rewrite Ho. }
  split.
  { unfold toGqlArg.
    cbn [no_opts pick curlyBrackets roundBrackets opts_roundBrackets].
    rewrite Ho.
    destruct (join (js ", ") (map encode_entry before ++ (k ++ js ": null")
                                                     :: map encode_entry after))
      eqn:E; [| done].
    apply join_not_nil in E; [done |]. by destruct k. }
  destruct Hv as [-> | ->]; (split; [done |]);
    unfold toGqlArg; cbn [convertToGqlArg]; by destruct (opts_roundBrackets opts).
Qed.

Lemma null_inside_mapping_and_at_top_level_witness :
  toGqlArg (VObj [(js "name", VStr (js "A")); (js "age", VNull)]) no_opts
  = [110; 97; 109; 101; 58; 32; 34; 65; 34; 44; 32]%N ++ js "age: null"
  /\ toGqlArg VUndefined round_opts = js " ".
Proof.
  pose proof (null_inside_mapping_and_at_top_level VNull (js "age")
                [(js "name", VStr (js "A"))] [] no_opts (or_introl eq_refl) eq_refl)
    as (_ & _ & _ & H & _).
  pose proof (null_inside_mapping_and_at_top_level VUndefined (js "age")
                [] [] round_opts (or_intror eq_refl) eq_refl)
    as (_ & _ & _ & _ & _ & H').
  split; [exact H | exact H'].
Defined.

(** C7 as the claim has it fails: [toGqlArg(null)] is not the text [null]. *)
Lemma toGqlArg_null_is_not_null_text :
  toGqlArg VNull no_opts = js "# no args <>" ++ [10%N]
  /\ toGqlArg VNull no_opts <> js "null"
  /\ toGqlArg VUndefined no_opts <> js "null".
Proof. split; [reflexivity |]. split; discriminate. Qed.

(** C8, as the code has it: with round brackets asked for, a non-empty
    encoding is put in parentheses and an empty one gives a single space;
    without them a non-empty encoding is returned as it is and an empty one
    gives the placeholder comment, which ends in a line feed. *)
Theorem toGqlArg_round_brackets_and_placeholder (arg : value) (opts : GqlArgOpts) :
  toGqlArg arg opts =
    match encoding arg opts, opts_roundBrackets opts with
    | Some (c :: text), true => js "(" ++ (c :: text) ++ js ")"
    | Some (c :: text), false => c :: text
    | _, true => js " "
    | _, false => js "# no args <>" ++ [10%N]
    end.
Proof.
  assert (Hother : forall t : option jsstring,
             (let '(gqlArg, opts') := (t, opts) in
              let gqlArg :=
                if opts_roundBrackets opts'
                then (if text_truthy gqlArg
                      then Some (js "(" ++ template_text gqlArg ++ js ")")
                      else Some (js " "))
                else gqlArg in
              if text_truthy gqlArg then template_text gqlArg else NO_ARGS)
             = match t, opts_roundBrackets opts with
               | Some (c :: text), true => js "(" ++ (c :: text) ++ js ")"
               | Some (c :: text), false => c :: text
               | _, true => js " "
               | _, false => js "# no args <>" ++ [10%N]
               end).
  { intros [[|c text]|]; destruct (opts_roundBrackets opts); reflexivity. }
  destruct arg as [| |b|n|s|items|props]; try apply Hother.
  unfold toGqlArg, encoding.
  destruct opts as [[p cb rb]|keys];
    cbn [pick curlyBrackets roundBrackets opts_roundBrackets].
  - destruct cb, rb; destruct (convertObjToGqlArg _) as [|c text]; reflexivity.
  - destruct (convertObjToGqlArg _) as [|c text]; reflexivity.
Qed.

(** C8 as the claim has it fails: with round brackets asked for, the empty
    encoding of [{}] gives one space, not the placeholder. *)
Lemma toGqlArg_empty_with_round_brackets :
  encoding (VObj []) round_opts = Some []
  /\ toGqlArg (VObj []) round_opts = js " "
  /\ toGqlArg (VObj []) round_opts <> js "# no args <>"
  /\ toGqlArg (VObj []) no_opts <> js "# no args <>".
Proof. split; [reflexivity |]. split; [reflexivity |]. split; discriminate. Qed.

End Encoder.

(** ** The template tag *)

Section Tag.

Lemma array_join_truthy sep items :
  array_join sep (List.filter truthy items)
  = join sep (map ToString (List.filter truthy items)).
Proof.
  unfold array_join. f_equal. induction items as [|x items IH]; [done |].
  cbn [List.filter]. destruct (truthy x) eqn:Hx; [| done].
  cbn [map]. rewrite IH. by destruct x.
Qed.

Lemma tag_loop_step out prev s rest args :
  tag_loop out prev (s :: rest) args
  = tag_loop (out ++ spliced prev (default VUndefined (head args)) ++ s) s rest
      (tail args).
Proof.
  cbn [tag_loop]. f_equal. unfold spliced.
  destruct (test ARGUMENT_SLOT prev); [by rewrite <- app_assoc |].
  destruct (default VUndefined (head args)) as [| |[]|n|t|items|props] eqn:E;
    cbn [truthy field_fragment app]; try reflexivity.
  - destruct n as [z| |]; [destruct (negb _) | |]; reflexivity.
  - destruct t as [|c t]; [reflexivity |].
    by rewrite <- app_assoc.
  - by rewrite <- app_assoc, array_join_truthy.
Qed.

Lemma tag_loop_snoc strings : forall out prev args s,
  tag_loop out prev (strings ++ [s]) args
  = tag_loop out prev strings args
    ++ spliced (default prev (last strings))
               (default VUndefined (args !! length strings))
    ++ s.
Proof.
  induction strings as [|s' strings IH]; intros out prev args s.
  - cbn [app]. rewrite tag_loop_step. cbn [tag_loop last default length].
    by destruct args.
  - cbn [app]. rewrite !tag_loop_step, IH. f_equal. f_equal. f_equal.
    + destruct strings as [|s'' strings]; [done |].
      destruct (proj2 (last_is_Some (s'' :: strings))) as [x Hx]; [done |].
      cbn [last] in *. by rewrite Hx.
    + by destruct args.
Qed.

(** The text composed up to a segment is the text composed up to the
    segment before it, the text spliced in for the slot between them, and
    the segment. *)
Lemma tag_take_step strings args i prev s out :
  strings !! i = Some prev -> strings !! S i = Some s ->
  tag (take (S i) strings) args = Some out ->
  tag (take (S (S i)) strings) args
  = Some (out ++ spliced prev (default VUndefined (args !! i)) ++ s).
Proof.
  intros Hprev Hs Hout. rewrite (take_S_r _ _ _ Hs).
  destruct strings as [|s0 rest]; [done |].
  cbn [take tag app] in *. injection Hout as <-.
  rewrite tag_loop_snoc.
  assert (Hn : length (take i rest) = i).
  { rewrite length_take. apply lookup_lt_Some in Hs. cbn [length] in Hs. lia. }
  assert (Hl : default s0 (last (take i rest)) = prev).
  { destruct i as [|i]; [by injection Hprev |].
    change (rest !! i = Some prev) in Hprev.
    by rewrite (take_S_r _ _ _ Hprev), last_snoc. }
  by rewrite Hn, Hl.
Qed.

(** The text composed of all the segments is the last of these texts. *)
Lemma tag_take_all strings args :
  tag (take (length strings) strings) args = tag strings args.
Proof. by rewrite firstn_all. Qed.

(** C4: the slot after segment [i] is an argument exactly when that segment
    ends in a colon or an opening parenthesis followed by white space only
    (the pattern of the source); then the output of [toGqlArg] is spliced
    in, and otherwise the field fragment; [tag] on [q(id:], [) { name }] and
    42 gives [q(id:42) { name }]. *)
Theorem tag_argument_slot (strings : list jsstring) (args : list value) (i : nat)
    (prev s out : jsstring) :
  strings !! i = Some prev -> strings !! S i = Some s ->
  tag (take (S i) strings) args = Some out ->
  (test ARGUMENT_SLOT prev = true <-> ends_in_colon_or_paren prev)
  /\ (ends_in_colon_or_paren prev ->
      tag (take (S (S i)) strings) args
      = Some (out ++ toGqlArg (default VUndefined (args !! i)) no_opts ++ s))
  /\ (~ ends_in_colon_or_paren prev ->
      tag (take (S (S i)) strings) args
      = Some (out ++ field_fragment (default VUndefined (args !! i)) ++ s))
  /\ tag [js "q(id:"; js ") { name }"] [VNum (NInt 42)]
     = Some (js "q(id:42) { name }").
Proof.
  intros Hprev Hs Hout. split; [apply test_ARGUMENT_SLOT |].
  rewrite (tag_take_step _ _ _ _ _ _ Hprev Hs Hout). unfold spliced.
  split; [| split; [| reflexivity]].
  - intros H. apply test_ARGUMENT_SLOT in H. by rewrite H.
  - intros H. destruct (test ARGUMENT_SLOT prev) eqn:Ht; [| done].
    by apply test_ARGUMENT_SLOT in Ht.
Qed.

(** C5: in a slot that is not an argument a string is spliced in as it is,
    an array as its truthy entries joined by one space, a falsy value that
    is not a string as nothing; the next segment follows in every case;
    [tag] on [{ ], [ }] and [["name", null, "age"]] gives [{ name age }]. *)
Theorem tag_field_fragment (strings : list jsstring) (args : list value) (i : nat)
    (prev s out : jsstring) :
  strings !! i = Some prev -> strings !! S i = Some s ->
  tag (take (S i) strings) args = Some out ->
  test ARGUMENT_SLOT prev = false ->
  (forall t, args !! i = Some (VStr t) ->
             tag (take (S (S i)) strings) args = Some (out ++ t ++ s))
  /\ (forall items, args !! i = Some (VArr items) ->
        tag (take (S (S i)) strings) args
        = Some (out ++ join (js " ") (map ToString (List.filter truthy items)) ++ s))
  /\ (truthy (default VUndefined (args !! i)) = false ->
      (forall t, args !! i <> Some (VStr t)) ->
      tag (take (S (S i)) strings) args = Some (out ++ s))
  /\ (exists text, tag (take (S (S i)) strings) args = Some (out ++ text ++ s))
  /\ tag [js "{ "; js " }"] [VArr [VStr (js "name"); VNull; VStr (js "age")]]
     = Some (js "{ name age }").
Proof.
  intros Hprev Hs Hout Ht.
  rewrite (tag_take_step _ _ _ _ _ _ Hprev Hs Hout). unfold spliced. rewrite Ht.
  split; [| split; [| split; [| split; [| reflexivity]]]].
  - by intros t ->.
  - by intros items ->.
  - intros Hf Hns. destruct (args !! i) as [[| |[]|n|t|items|props]|];
      try discriminate; try reflexivity.
    by destruct (Hns t).
  - eauto.
Qed.

Lemma tag_argument_slot_witness :
  ends_in_colon_or_paren (js "q(id:")
  /\ tag (take 2 [js "q(id:"; js ") { name }"]) [VNum (NInt 42)]
     = Some (js "q(id:" ++ js "42" ++ js ") { name }").
Proof.
  destruct (tag_argument_slot [js "q(id:"; js ") { name }"] [VNum (NInt 42)] 0
              (js "q(id:") (js ") { name }") (js "q(id:")
              eq_refl eq_refl eq_refl) as (Hiff & Harg & _ & _).
  assert (He : ends_in_colon_or_paren (js "q(id:")).
  { apply Hiff. reflexivity. }
  split; [exact He | exact (Harg He)].
Defined.

Lemma tag_field_fragment_witness :
  test ARGUMENT_SLOT (js "{ ") = false
  /\ tag (take 2 [js "{ "; js " }"]) [VArr [VStr (js "name"); VNull; VStr (js "age")]]
     = Some (js "{ " ++ js "name age" ++ js " }").
Proof.
  destruct (tag_field_fragment [js "{ "; js " }"]
              [VArr [VStr (js "name"); VNull; VStr (js "age")]] 0
              (js "{ ") (js " }") (js "{ ") eq_refl eq_refl eq_refl eq_refl)
    as (_ & Harr & _ & _ & _).
  split; [reflexivity | exact (Harr _ eq_refl)].
Defined.

End Tag.

(** ** Execution, cache and errors *)

Section ClientFacts.

Context {Schema Document Ctx RawError : Type}.
Implicit Types (this : @Gql Schema RawError)
  (env : @Collaborators Schema Document Ctx RawError) (w : World)
  (c : Ctx) (o : ExecOptions).

(** A truthy cached value is returned and nothing else happens. *)
Lemma exec_hit this env w q c o :
  truthy (cache_lookup this w o) = true ->
  exec this env w q c o = (Resolved (cache_lookup this w o), w).
Proof.
  intros H. unfold exec. unfold cache_lookup in *. cbv zeta. by rewrite H.
Qed.

(** Otherwise the normalized text goes to the remote or local path, and a
    result is stored when there are a key and a cache. *)
Lemma exec_miss this env w q c o :
  truthy (cache_lookup this w o) = false ->
  exec this env w q c o =
    match underlying this env (normalized q) c o with
    | Rejected e =>
        (Rejected e, {| store := store w; executed := normalized q :: executed w |})
    | Resolved r =>
        (Resolved r,
         {| store := if given (cache_key o) && cache this
                     then <[default [] (cache_key o)
                            := (r, default ONE_DAY (cache_ttl o))]> (store w)
                     else store w;
            executed := normalized q :: executed w |})
    end.
Proof.
  intros H. unfold exec, underlying, normalized. unfold cache_lookup in *.
  cbv zeta. rewrite H.
  destruct (api this) as [a|];
    [destruct (_execApi _ _ _ _) | destruct (_execGraphql _ _ _ _ _ _)];
    cbn [store executed]; try reflexivity;
    destruct (given (cache_key o) && cache this); reflexivity.
Qed.

Lemma cache_lookup_off this w o :
  cache this = false \/ given (cache_key o) = false ->
  cache_lookup this w o = VUndefined.
Proof.
  unfold cache_lookup. intros [-> | ->]; [by rewrite andb_false_r | done].
Qed.

Lemma test_OPERATION_KEYWORD q :
  test OPERATION_KEYWORD q = true <-> mentions_operation_keyword q.
Proof.
  rewrite test_spec. unfold mentions_operation_keyword. split.
  - intros (a & pre & word & post & Ha & -> & Hw & Hs & _).
    destruct Ha as [<- | [<- | [<- | []]]]; cbn [at_start at_end alt_body] in *.
    + left. rewrite Hs by done.
      apply lang_seq_inv in Hw as (ws & kw & -> & Hws & Hkw).
      apply lang_star_class in Hws. apply lang_lit in Hkw as ->.
      exists ws, post. by rewrite <- app_assoc.
    + right; left. apply lang_lit in Hw as ->. eauto.
    + right; right. apply lang_lit in Hw as ->. eauto.
  - intros [(ws & rest & -> & Hws) | [(a & b & ->) | (a & b & ->)]].
    + eexists _, [], (ws ++ js "query"), rest. split; [by left |].
      cbn [at_start at_end alt_body]. split; [by rewrite <- app_assoc |].
      split; [| done]. apply L_seq; [by apply lang_star_class | by apply lang_lit].
    + eexists _, a, (js "mutation"), b. split; [right; by left |].
      cbn [at_start at_end alt_body]. split; [done |]. split; [by apply lang_lit | done].
    + eexists _, a, (js "subscription"), b. split; [right; right; by left |].
      cbn [at_start at_end alt_body]. split; [done |]. split; [by apply lang_lit | done].
Qed.

Lemma test_SELECTION_START q :
  test SELECTION_START q = true <-> starts_with_letter_or_digit q.
Proof.
  rewrite test_spec. unfold starts_with_letter_or_digit. split.
  - intros (a & pre & word & post & Ha & -> & Hw & Hs & _).
    destruct Ha as [<- | []]; cbn [at_start at_end alt_body] in *.
    rewrite Hs by done.
    apply lang_seq_inv in Hw as (ws & cs & -> & Hws & Hc).
    apply lang_star_class in Hws. apply lang_class_inv in Hc as (ch & -> & Hch).
    exists ws, ch, post. by rewrite <- app_assoc.
  - intros (ws & ch & rest & -> & Hws & Hch).
    eexists _, [], (ws ++ [ch]), rest. split; [by left |].
    cbn [at_start at_end alt_body]. split; [by rewrite <- app_assoc |].
    split; [| done]. apply L_seq; [by apply lang_star_class | by constructor].
Qed.

(** X22: when [exec] wraps, as the code has it: the text is wrapped in
    [query { }] when it begins, after white space, with a letter or a digit
    and the pattern of line 172 finds no keyword in it, and is left as it is
    otherwise. *)
Lemma exec_wraps_exactly_when q :
  (starts_with_letter_or_digit q /\ ~ mentions_operation_keyword q ->
   normalized q = js "query { " ++ q ++ js " }")
  /\ (~ starts_with_letter_or_digit q \/ mentions_operation_keyword q ->
      normalized q = q).
Proof.
  unfold normalized. split.
  - intros [Hs Hk]. apply test_SELECTION_START in Hs. rewrite Hs.
    destruct (test OPERATION_KEYWORD q) eqn:E; [| done].
    by apply test_OPERATION_KEYWORD in E.
  - intros [Hs | Hk].
    + destruct (test SELECTION_START q) eqn:E; [| by rewrite andb_false_r].
      by apply test_SELECTION_START in E.
    + apply test_OPERATION_KEYWORD in Hk. by rewrite Hk.
Qed.

(** C1 at [user { mutationCount }]: the text does not start with an
    operation keyword and begins with a letter, and [exec] hands it on as it
    is, not wrapped in [query { }]. *)
Theorem exec_leaves_text_with_mutation_inside this env w c :
  starts_with_operation_keyword (js "user { mutationCount }") = false
  /\ begins_with_identifier_character (js "user { mutationCount }") = true
  /\ executed (snd (exec this env w (js "user { mutationCount }") c
                      (exec_options None)))
     = js "user { mutationCount }" :: executed w.
Proof.
  split; [reflexivity |]. split; [reflexivity |].
  rewrite exec_miss by reflexivity.
  change (normalized (js "user { mutationCount }"))
    with (js "user { mutationCount }").
  by destruct (underlying _ _ _ _ _).
Qed.

(** The two examples of the specification. *)
Lemma exec_wraps_bare_selection this env w c :
  executed (snd (exec this env w (js "user { id }") c (exec_options None)))
  = js "query { user { id } }" :: executed w
  /\ executed (snd (exec this env w (js "query { user { id } }") c
                      (exec_options None)))
     = js "query { user { id } }" :: executed w.
Proof.
  rewrite !exec_miss by reflexivity.
  change (normalized (js "user { id }")) with (js "query { user { id } }").
  change (normalized (js "query { user { id } }")) with (js "query { user { id } }").
  split; by destruct (underlying _ _ _ _ _).
Qed.

(** C2, as the code has it: with a cache, a non-empty key and a first call
    that resolves with a truthy result, a second call with that key is
    served from the cache and nothing is executed for it; a first call that
    fails writes nothing to the cache and the second call executes; with no
    cache or no non-empty key every call executes and the cache is left as
    it is. *)
Theorem exec_cache this env1 env2 w q1 q2 c1 c2 o1 o2 r1 w1 r2 w2 :
  exec this env1 w q1 c1 o1 = (r1, w1) ->
  exec this env2 w1 q2 c2 o2 = (r2, w2) ->
  (cache this = true -> given (cache_key o1) = true ->
   cache_key o2 = cache_key o1 ->
   forall v, r1 = Resolved v -> truthy v = true ->
             r2 = Resolved v /\ w2 = w1
             /\ (length (executed w2) <= S (length (executed w)))%nat)
  /\ (forall e, r1 = Rejected e ->
        store w1 = store w
        /\ executed w1 = normalized q1 :: executed w
        /\ (cache_key o2 = cache_key o1 ->
            executed w2 = normalized q2 :: executed w1))
  /\ (cache this = false \/ given (cache_key o1) = false ->
      store w1 = store w /\ executed w1 = normalized q1 :: executed w).
Proof.
  intros H1 H2. split; [| split].
  - intros Hc Hk Heq v -> Hv.
    assert (Hl : cache_lookup this w1 o2 = v).
    { unfold cache_lookup. rewrite Heq, Hk, Hc. cbn [andb].
      destruct (truthy (cache_lookup this w o1)) eqn:Hhit.
      - rewrite exec_hit in H1 by done. injection H1 as <- <-.
        unfold cache_lookup. by rewrite Hk, Hc.
      - rewrite exec_miss in H1 by done.
        destruct (underlying this env1 (normalized q1) c1 o1); [| done].
        injection H1 as -> <-. cbn [store]. rewrite Hk, Hc. cbn [andb].
        by rewrite lookup_insert_eq. }
    rewrite exec_hit in H2 by (by rewrite Hl). injection H2 as <- <-.
    split; [by rewrite Hl |]. split; [done |].
    destruct (truthy (cache_lookup this w o1)) eqn:Hhit.
    + rewrite exec_hit in H1 by done. injection H1 as _ <-. lia.
    + rewrite exec_miss in H1 by done.
      destruct (underlying this env1 (normalized q1) c1 o1); [| done].
      injection H1 as _ <-. cbn [executed length]. lia.
  - intros e ->.
    destruct (truthy (cache_lookup this w o1)) eqn:Hhit;
      [by rewrite exec_hit in H1 |].
    rewrite exec_miss in H1 by done.
    destruct (underlying this env1 (normalized q1) c1 o1); [done |].
    injection H1 as _ <-. cbn [store executed]. split; [done |]. split; [done |].
    intros Heq.
    assert (Hmiss : truthy (cache_lookup this
                      {| store := store w; executed := normalized q1 :: executed w |}
                      o2) = false).
    { unfold cache_lookup in *. by rewrite Heq. }
    rewrite exec_miss in H2 by done.
    destruct (underlying this env2 (normalized q2) c2 o2);
      by injection H2 as _ <-.
  - intros Hoff.
    rewrite exec_miss in H1 by (by rewrite cache_lookup_off).
    assert (Hg : given (cache_key o1) && cache this = false).
    { destruct Hoff as [-> | ->]; [apply andb_false_r | done]. }
    rewrite Hg in H1.
    destruct (underlying this env1 (normalized q1) c1 o1);
      by injection H1 as _ <-.
Qed.

Lemma last_write_None this (errs : list RawError) k :
  (forall e, e ∈ errs -> contributes this e k = None) -> last_write this errs k = None.
Proof.
  unfold last_write. induction errs as [|e errs IH]; intros H; [done |].
  cbn [omap list_omap]. rewrite (H e) by left.
  apply IH. intros e' He'. apply H. by right.
Qed.

Lemma last_write_Some this (errs : list RawError) e k :
  e ∈ errs -> is_Some (contributes this e k) -> is_Some (last_write this errs k).
Proof.
  unfold last_write. intros He [x Hx]. apply last_is_Some.
  intros Hnil. assert (Hin : x ∈ omap (fun e => contributes this e k) errs).
  { apply list_elem_of_omap. eauto. }
  rewrite Hnil in Hin. by apply not_elem_of_nil in Hin.
Qed.

(** The fields merged by the loop of [_execGraphql]: under each key the
    last entry written, or what was there before. *)
Lemma merged_fields_lookup this (errs : list RawError) : forall acc k,
  fold_left (fun target error =>
               let error := formatError this error in
               Object_assign target (fields error)) errs acc !! k
  = from_option Some (acc !! k) (last_write this errs k).
Proof.
  unfold last_write.
  induction errs as [|e errs IH]; intros acc k; [done |].
  cbn [fold_left omap list_omap]. rewrite IH. unfold contributes at 2.
  destruct (fields (formatError this e)) as [f|] eqn:Hf; cbn [Object_assign mbind option_bind].
  - rewrite lookup_union. destruct (f !! k) as [x|] eqn:Hx.
    + assert (Hu : Some x ∪ acc !! k = Some x) by (destruct (acc !! k); reflexivity).
      rewrite Hu.
      destruct (omap _ errs) as [|y l] eqn:Ho; [reflexivity |].
      destruct (proj2 (last_is_Some (y :: l))) as [z Hz]; [done |].
      rewrite (last_cons_cons x y l), Hz. reflexivity.
    + by destruct (acc !! k).
  - done.
Qed.

(** The remote path resolves with truthy results only. *)
Lemma execApi_resolves_truthy this env api q r :
  _execApi this env api q = Resolved r -> truthy r = true.
Proof.
  unfold _execApi. cbv zeta.
  destruct (negb (statusCode _ =? 200)%Z); [done |].
  destruct (truthy (Str_tryParseJson env _)) eqn:Ht; cbn [negb]; [| done].
  destruct (negb (_isEmpty _)); [done |]. by intros [= <-].
Qed.

(** C3: when the engine's result has a non-empty list of errors, the local
    path fails with a [GraphqlError] that carries the raw errors and a map
    of fields that is never empty: the merge of the fields of the formatted
    errors, each key holding the entry of the last error that has one, or
    the single [global] entry when no error has any. *)
Theorem execGraphql_merges_fields this env q c vars name (errs : list RawError) :
  errors (local_result this env q c vars name) = Some errs -> errs <> [] ->
  exists msg flds,
    _execGraphql this env q c vars name = Rejected (GraphqlError msg errs flds)
    /\ flds <> ∅
    /\ ((exists e k, e ∈ errs /\ is_Some (contributes this e k)) ->
        forall k, flds !! k = last_write this errs k)
    /\ ((forall e k, e ∈ errs -> contributes this e k = None) ->
        flds = {[ js "global" := {| message := js "Unknown Error";
                                    keyword := js "unknown" |} ]}).
Proof.
  intros Hres Hne. unfold _execGraphql. unfold local_result in Hres.
  cbv zeta. rewrite Hres. destruct errs as [|e0 errs']; [done |].
  set (errs := e0 :: errs') in *.
  set (merged := fold_left _ errs ∅).
  assert (Hm : forall k, merged !! k = last_write this errs k).
  { intros k. unfold merged. rewrite merged_fields_lookup, lookup_empty.
    by destruct (last_write this errs k). }
  eexists _, _. split; [reflexivity |].
  destruct (size merged =? 0)%nat eqn:Hsz.
  - apply Nat.eqb_eq, map_size_empty_iff in Hsz.
    split; [by apply (map_non_empty_singleton (M := gmap (list N))) |]. split; [| done].
    intros (e & k & He & Hk). apply (last_write_Some this errs e k He) in Hk.
    rewrite <- Hm, Hsz, lookup_empty in Hk. by destruct Hk.
  - apply Nat.eqb_neq in Hsz.
    split; [by rewrite <- map_size_empty_iff |]. split; [done |].
    intros Hnone. destruct Hsz. apply map_size_empty_iff, map_eq. intros k.
    rewrite Hm, lookup_empty. apply last_write_None. eauto.
Qed.

Lemma get_single_key this env w q c o k v w' :
  exec this env w q c o = (Resolved (VObj [(k, v)]), w') ->
  get this env w q c o =
    if truthy v then
      match has_property (js "nodes") v with
      | None => (Rejected TypeError, w')
      | Some true =>
          if (length (Object_keys v) =? 1)%nat
          then (Resolved (get_property v (js "nodes")), w')
          else (Resolved v, w')
      | Some false => (Resolved v, w')
      end
    else (Resolved v, w').
Proof.
  intros H. unfold get. rewrite H.
  cbn [truthy negb Object_keys own_properties obj_keys map fst length Nat.eqb
       lookup list_lookup default].
  assert (Hv : get_property (VObj [(k, v)]) (id k) = v).
  { unfold get_property, obj_get. cbn [own_properties find fst id].
    by rewrite bool_decide_eq_true_2. }
  by rewrite Hv.
Qed.

(** C9 at a result such as [{count: 5}]: when the only top-level key holds
    a truthy value that is not an object, a number, a non-empty string or
    [true], [get] does not return that value: looking for [nodes] in it
    raises a [TypeError]. *)
Theorem get_throws_on_truthy_scalar this env w q c o k v w' :
  exec this env w q c o = (Resolved (VObj [(k, v)]), w') ->
  truthy v = true -> is_primitive v = true ->
  get this env w q c o = (Rejected TypeError, w').
Proof.
  intros H Ht Hp. rewrite (get_single_key _ _ _ _ _ _ _ _ _ H), Ht.
  by destruct v.
Qed.

(** X21: what [get] does for the other results: a falsy result, and one that
    has not exactly one key, are returned as they are; a falsy value under
    the only key is returned; a plain object under the only key is
    returned, unless its only key is [nodes], whose value is returned
    then. *)
Lemma get_unwraps this env w q c o result w' :
  exec this env w q c o = (Resolved result, w') ->
  (truthy result = false \/ length (Object_keys result) <> 1%nat ->
   get this env w q c o = (Resolved result, w'))
  /\ (forall k v, result = VObj [(k, v)] -> truthy v = false ->
      get this env w q c o = (Resolved v, w'))
  /\ (forall k nodes, result = VObj [(k, VObj [(js "nodes", nodes)])] ->
      get this env w q c o = (Resolved nodes, w'))
  /\ (forall k props, result = VObj [(k, VObj props)] ->
      obj_keys props <> [js "nodes"] ->
      get this env w q c o = (Resolved (VObj props), w')).
Proof.
  intros H. split; [| split; [| split]].
  - intros Hr. unfold get. rewrite H. destruct (truthy result); [| done].
    cbn [negb]. destruct Hr as [Hr | Hr]; [done |].
    by apply Nat.eqb_neq in Hr as ->.
  - intros k v -> Hv. by rewrite (get_single_key _ _ _ _ _ _ _ _ _ H), Hv.
  - intros k nodes ->. rewrite (get_single_key _ _ _ _ _ _ _ _ _ H).
    reflexivity.
  - intros k props -> Hk. rewrite (get_single_key _ _ _ _ _ _ _ _ _ H).
    cbn [truthy has_property]. unfold Object_keys. cbn [own_properties].
    destruct (bool_decide (js "nodes" ∈ obj_keys props)) eqn:Hin; [| done].
    destruct (length (obj_keys props) =? 1)%nat eqn:Hlen; [| done].
    apply Nat.eqb_eq in Hlen. apply bool_decide_eq_true_1 in Hin.
    destruct (obj_keys props) as [|n [|n' l]]; try done.
    apply list_elem_of_singleton in Hin. subst n. by destruct Hk.
Qed.

Lemma getAll_is_exec this env w q c o :
  getAll this env w q c o = exec this env w q c o.
Proof. reflexivity. Qed.

End ClientFacts.

(** *** The theorems at the clients of the examples *)

Lemma exec_cache_witness :
  exists w1,
    exec (local_client no_fields true) (example_env (resolves_with user_data) VNull)
      empty_world (js "user { id }") tt (exec_options (Some (js "k")))
    = (Resolved user_data, w1)
    /\ exec (local_client no_fields true) (example_env (resolves_with user_data) VNull)
         w1 (js "me { id }") tt (exec_options (Some (js "k")))
       = (Resolved user_data, w1)
    /\ executed w1 = [js "query { user { id } }"].
Proof.
  destruct (exec (local_client no_fields true)
              (example_env (resolves_with user_data) VNull)
              empty_world (js "user { id }") tt (exec_options (Some (js "k"))))
    as [r1 w1] eqn:E1.
  destruct (exec (local_client no_fields true)
              (example_env (resolves_with user_data) VNull)
              w1 (js "me { id }") tt (exec_options (Some (js "k"))))
    as [r2 w2] eqn:E2.
  destruct (exec_cache _ _ _ _ _ _ _ _ _ _ _ _ _ _ E1 E2) as (Ha & _ & _).
  assert (Hr : r1 = Resolved user_data)
    by (vm_compute in E1; injection E1 as <- _; reflexivity).
  assert (Hx : executed w1 = [js "query { user { id } }"])
    by (vm_compute in E1; injection E1 as _ <-; reflexivity).
  destruct (Ha eq_refl eq_refl eq_refl user_data Hr eq_refl) as (-> & -> & _).
  exists w1. subst r1. done.
Defined.

(** C2 as the claim has it fails: a key that is the empty string is not
    used, and a result that is falsy is stored but not served; in both
    cases the second call executes again. *)
Lemma exec_cache_executes_twice :
  (let this := local_client no_fields true in
   let env := example_env (resolves_with user_data) VNull in
   let o := exec_options (Some []) in
   let '(r1, w1) := exec this env empty_world (js "user { id }") tt o in
   let '(r2, w2) := exec this env w1 (js "user { id }") tt o in
   r1 = Resolved user_data
   /\ executed w2 = [js "query { user { id } }"; js "query { user { id } }"])
  /\ (let this := local_client no_fields true in
      let env := example_env (resolves_with VNull) VNull in
      let o := exec_options (Some (js "k")) in
      let '(r1, w1) := exec this env empty_world (js "user { id }") tt o in
      let '(r2, w2) := exec this env w1 (js "user { id }") tt o in
      r1 = Resolved VNull
      /\ executed w2 = [js "query { user { id } }"; js "query { user { id } }"]).
Proof. split; vm_compute; split; reflexivity. Qed.

Lemma get_throws_on_truthy_scalar_witness :
  get (local_client no_fields false)
    (example_env (resolves_with (VObj [(js "count", VNum (NInt 5))])) VNull)
    empty_world (js "count") tt (exec_options None)
  = (Rejected TypeError, {| store := ∅; executed := [js "query { count }"] |}).
Proof.
  apply (get_throws_on_truthy_scalar _ _ _ _ _ _ (js "count") (VNum (NInt 5)));
    reflexivity.
Defined.

Lemma execGraphql_merges_fields_witness :
  exists msg flds,
    _execGraphql (local_client email_fields false)
      (example_env (fails_with [js "email"; js "other"]) VNull)
      (js "query { user { id } }") tt None None
    = Rejected (GraphqlError msg [js "email"; js "other"] flds)
    /\ flds <> ∅
    /\ flds !! js "email" = Some email_error
    /\ flds = {[ js "email" := email_error ]}.
Proof.
  destruct (execGraphql_merges_fields (local_client email_fields false)
              (example_env (fails_with [js "email"; js "other"]) VNull)
              (js "query { user { id } }") tt None None
              [js "email"; js "other"] eq_refl ltac:(discriminate))
    as (msg & flds & Heq & Hne & Hlast & _).
  exists msg, flds. split; [exact Heq |]. split; [exact Hne |]. split.
  - rewrite Hlast; [reflexivity |].
    exists (js "email"), (js "email"). split; [left |].
    exists email_error. reflexivity.
  - vm_compute in Heq. injection Heq as _ <-. reflexivity.
Defined.

(** ** More on the argument encoder *)

Section EncoderRoundTrip.

Lemma hex_value_digit n : (n < 16)%N -> hex_value (hex_digit n) = Some n.
Proof.
  intros Hn. unfold hex_value, hex_digit, in_range.
  destruct (N.ltb_spec n 10).
  - destruct (N.leb_spec 48 (48 + n)); [| lia].
    destruct (N.leb_spec (48 + n) 57); [| lia]. cbn [andb]. f_equal. lia.
  - destruct (N.leb_spec 48 (87 + n)); [| lia].
    destruct (N.leb_spec (87 + n) 57); [lia |]. cbn [andb].
    destruct (N.leb_spec 97 (87 + n)); [| lia].
    destruct (N.leb_spec (87 + n) 102); [| lia]. cbn [andb]. f_equal. lia.
Qed.

Lemma hex_digits_value c :
  (c < 65536)%N ->
  (4096 * ((c / 4096) mod 16) + 256 * ((c / 256) mod 16)
   + 16 * ((c / 16) mod 16) + c mod 16 = c)%N.
Proof.
  intros H.
  pose proof (N.div_mod c 16 ltac:(lia)).
  pose proof (N.div_mod (c / 16) 16 ltac:(lia)).
  pose proof (N.div_mod (c / 16 / 16) 16 ltac:(lia)).
  rewrite !N.Div0.div_div in *.
  assert (c / (16 * 16 * 16) < 16)%N by (apply N.Div0.div_lt_upper_bound; lia).
  rewrite (N.mod_small (c / 4096) 16) by (change 4096%N with (16 * 16 * 16)%N; lia).
  change (16 * 16)%N with 256%N in *. change (256 * 16)%N with 4096%N in *.
  pose proof (N.mod_lt c 16 ltac:(lia)).
  pose proof (N.mod_lt (c / 16) 16 ltac:(lia)).
  pose proof (N.mod_lt (c / 256) 16 ltac:(lia)).
  lia.
Qed.

(** An escape [\uXXXX] in front of a text is read back as its character. *)
Lemma unquote_unicode_escape c t :
  (c < 65536)%N ->
  unquote_chars (unicode_escape c ++ t) = cons c <$> unquote_chars t.
Proof.
  intros Hc. unfold unicode_escape.
  change (js "\u") with [92; 117]%N. cbn [app unquote_chars N.eqb Pos.eqb].
  rewrite !hex_value_digit by (apply N.mod_lt; lia).
  by rewrite hex_digits_value.
Qed.

Lemma unquote_quote_chars_upto n : forall s,
  (length s <= n)%nat -> unquote_chars (quote_chars s) = Some s.
Proof.
  induction n as [|n IH]; intros [|c rest] Hlen; try reflexivity;
    cbn [length] in Hlen; [lia |].
  assert (Hrest : unquote_chars (quote_chars rest) = Some rest) by (apply IH; lia).
  cbn [quote_chars].
  destruct (N.eqb_spec c 8) as [-> | H8]; [cbn; by rewrite Hrest |].
  destruct (N.eqb_spec c 9) as [-> | H9]; [cbn; by rewrite Hrest |].
  destruct (N.eqb_spec c 10) as [-> | H10]; [cbn; by rewrite Hrest |].
  destruct (N.eqb_spec c 12) as [-> | H12]; [cbn; by rewrite Hrest |].
  destruct (N.eqb_spec c 13) as [-> | H13]; [cbn; by rewrite Hrest |].
  destruct (N.eqb_spec c 34) as [-> | H34]; [cbn; by rewrite Hrest |].
  destruct (N.eqb_spec c 92) as [-> | H92]; [cbn; by rewrite Hrest |].
  assert (Hraw : forall t, (32 <= c)%N ->
                           unquote_chars (c :: t) = cons c <$> unquote_chars t).
  { intros t H32. cbn [unquote_chars].
    destruct (N.eqb_spec c 92); [done |]. destruct (N.eqb_spec c 34); [done |].
    destruct (N.ltb_spec c 32); [lia | done]. }
  destruct (N.ltb_spec c 32) as [Hlt | Hge].
  { rewrite unquote_unicode_escape by lia. by rewrite Hrest. }
  unfold is_high_surrogate, is_low_surrogate, in_range.
  destruct (N.leb_spec 55296 c) as [Hhi | Hhi]; cbn [andb].
  - destruct (N.leb_spec c 56319) as [Hhi' | Hhi'].
    + destruct rest as [|d rest'].
      * rewrite <- (app_nil_r (unicode_escape c)).
        by rewrite unquote_unicode_escape by lia.
      * destruct (N.leb_spec 56320 d) as [Hd | Hd]; cbn [andb].
        -- destruct (N.leb_spec d 57343) as [Hd' | Hd'].
           ++ rewrite Hraw by lia.
              cbn [unquote_chars].
              destruct (N.eqb_spec d 92); [lia |]. destruct (N.eqb_spec d 34); [lia |].
              destruct (N.ltb_spec d 32); [lia |]. cbn [orb].
              rewrite IH by (cbn [length] in Hlen; lia). reflexivity.
           ++ rewrite unquote_unicode_escape by lia. by rewrite Hrest.
        -- rewrite unquote_unicode_escape by lia. by rewrite Hrest.
    + destruct (N.leb_spec 56320 c) as [Hlo | Hlo]; [| lia]. cbn [andb].
      destruct (N.leb_spec c 57343) as [Hlo' | Hlo'].
      * rewrite unquote_unicode_escape by lia. by rewrite Hrest.
      * rewrite Hraw by lia. by rewrite Hrest.
  - destruct (N.leb_spec 56320 c); [lia |]. cbn [andb].
    rewrite Hraw by lia. by rewrite Hrest.
Qed.

(** The characters of a quoted literal read back as the string. *)
Lemma unquote_quote_chars s : unquote_chars (quote_chars s) = Some s.
Proof. by apply (unquote_quote_chars_upto (length s)). Qed.

(** X1: the argument text of a string reads back as that string: the
    literal between quotes unescapes to it, and the bare word of an enum
    stands for its sentinel; so two different strings never have the same
    argument text. *)
Theorem convertStrToGqlArg_reads_back (s : jsstring) :
  read_string_argument (convertStrToGqlArg s) = Some s
  /\ (forall s', convertStrToGqlArg s' = convertStrToGqlArg s -> s' = s).
Proof.
  assert (Hread : forall s, read_string_argument (convertStrToGqlArg s) = Some s).
  { clear s. intros s. destruct (test ENUM_REGEX s) eqn:Ht.
    - apply test_ENUM_REGEX in Ht as (id & -> & Hid).
      rewrite (match_ENUM_REGEX_group _ id) by done.
      destruct Hid as [Hne Hid]. destruct id as [|c id]; [done |].
      unfold read_string_argument.
      assert (Hall : forallb is_enum_char (c :: id) = true).
      { apply forallb_forall. intros x Hx. rewrite Forall_forall in Hid.
        apply Hid. by apply list_elem_of_In. }
      rewrite Hall. apply Forall_inv in Hid.
      destruct (N.eqb_spec c 34) as [-> | _]; [discriminate | done].
    - assert (Hno : ~ exists id, s = ENUM_PREFIX ++ id /\ enum_identifier id).
      { intros (id & -> & Hid). apply not_true_iff_false in Ht. apply Ht.
        apply test_ENUM_REGEX. by exists id. }
      rewrite (match_ENUM_REGEX_none s Hno).
      unfold QuoteJSONString, read_string_argument. cbn [app N.eqb Pos.eqb].
      rewrite reverse_app. change (reverse [34%N]) with [34%N].
      cbn [app N.eqb Pos.eqb]. rewrite reverse_involutive.
      apply unquote_quote_chars. }
  split; [apply Hread |].
  intros s' Heq. apply (f_equal read_string_argument) in Heq.
  rewrite !Hread in Heq. by injection Heq.
Qed.

End EncoderRoundTrip.

Section EncoderMappings.

Lemma obj_get_cons {A : Type} k k' (v' : A) o :
  obj_get k ((k', v') :: o) = if bool_decide (k' = k) then Some v' else obj_get k o.
Proof.
  unfold obj_get. cbn [find fst]. by destruct (bool_decide (k' = k)).
Qed.














Lemma encode_entry_not_nil kv : encode_entry kv <> [].
Proof.
  unfold encode_entry. intros H. apply app_eq_nil in H as [_ H]. discriminate.
Qed.

Lemma join_entries_not_nil (props : list (list N * value)) :
  props <> [] -> join (js ", ") (map encode_entry props) <> [].
Proof.
  destruct props as [|kv props]; [done |]. intros _.
  apply (join_not_nil _ [] (encode_entry kv) (map encode_entry props)).
  apply encode_entry_not_nil.
Qed.

(** X4: a mapping that is encoded key by key and is not empty is written
    as its entries joined by a comma and a space: bare when it is the
    argument of [toGqlArg], between curly brackets when [curlyBrackets] is
    set, which is also its text as a nested value, and between parentheses
    when [roundBrackets] is set. *)
Theorem toGqlArg_mapping_brackets (props : list (list N * value)) :
  array_like_length props = None -> props <> [] ->
  toGqlArg (VObj props) no_opts = join (js ", ") (map encode_entry props)
  /\ toGqlArg (VObj props) curly_opts
     = js "{" ++ join (js ", ") (map encode_entry props) ++ js "}"
  /\ convertToGqlArg (VObj props) = Some (toGqlArg (VObj props) curly_opts)
  /\ toGqlArg (VObj props) round_opts
     = js "(" ++ join (js ", ") (map encode_entry props) ++ js ")".
Proof.
  intros Hlen Hne.
  pose proof (convertObjToGqlArg_entries props Hlen) as He.
  pose proof (join_entries_not_nil props Hne) as Hj.
  unfold toGqlArg. cbn [convertToGqlArg].
  fold (convertObjToGqlArg props).
  cbn [no_opts curly_opts round_opts pick curlyBrackets roundBrackets
       opts_roundBrackets].
  rewrite He. destruct (join (js ", ") (map encode_entry props)) eqn:E; done.
Qed.

Lemma toGqlArg_mapping_brackets_witness :
  toGqlArg (VObj [(js "id", VNum (NInt 1)); (js "state", VStr (js "__ENUM__::ON"))])
    round_opts
  = js "(id: 1, state: ON)".
Proof.
  refine (proj2 (proj2 (proj2 (toGqlArg_mapping_brackets
    [(js "id", VNum (NInt 1)); (js "state", VStr (js "__ENUM__::ON"))]
    eq_refl _)))).
  discriminate.
Defined.

Lemma obj_get_map {A B : Type} (f : A -> B) k (o : list (list N * A)) :
  obj_get k (map (fun kv => (fst kv, f (snd kv))) o) = f <$> obj_get k o.
Proof.
  induction o as [|[k1 v1] o IH]; [done |].
  cbn [map fst snd]. rewrite !obj_get_cons, IH.
  by destruct (bool_decide (k1 = k)).
Qed.

(** X5: a mapping whose [length] is a whole number [n] from 0 to
    [Number.MAX_SAFE_INTEGER] is walked like an array: what is encoded are
    the indices below [n], each with the value the mapping has under that
    index ([null] when it has none), and none of its other keys, [length]
    included; with [length] 0 nothing is encoded at all. *)
Theorem mapping_with_length_is_encoded_by_index (props : list (list N * value))
    (n : nat) :
  array_like_length props = Some n ->
  convertObjToGqlArg props
  = join (js ", ")
      (map (fun i => index_key i ++ js ": "
                     ++ template_text
                          (convertToGqlArg (get_property (VObj props) (index_key i))))
           (seq 0 n))
  /\ (n = 0%nat -> toGqlArg (VObj props) no_opts = js "# no args <>" ++ [10%N]).
Proof.
  intros Hlen.
  assert (He : convertObjToGqlArg props
               = join (js ", ")
                   (map (fun i => index_key i ++ js ": "
                          ++ template_text
                               (convertToGqlArg
                                  (get_property (VObj props) (index_key i))))
                        (seq 0 n))).
  { unfold convertObjToGqlArg, convertObjToGqlArg_with. rewrite Hlen.
    cbn [_forEach_calls]. rewrite map_map. f_equal. apply map_ext. intros i.
    cbn [fst snd]. do 3 f_equal. rewrite obj_get_map.
    unfold get_property. cbn [own_properties].
    by destruct (obj_get (index_key i) props). }
  split; [exact He |]. intros ->.
  unfold toGqlArg.
  cbn [no_opts pick curlyBrackets roundBrackets opts_roundBrackets].
  by rewrite He.
Qed.

Lemma mapping_with_length_is_encoded_by_index_witness :
  convertObjToGqlArg [(js "length", VNum (NInt 2)); (js "width", VNum (NInt 3))]
  = js "0: null, 1: null".
Proof.
  exact (proj1 (mapping_with_length_is_encoded_by_index
                  [(js "length", VNum (NInt 2)); (js "width", VNum (NInt 3))]
                  2 eq_refl)).
Defined.

Lemma is_enum_char_plain c :
  is_enum_char c = true ->
  (in_range 32 126 c && negb (c =? 34) && negb (c =? 92))%N = true.
Proof.
  unfold is_enum_char, is_upper, is_lower, in_range. intros H.
  repeat match goal with
         | |- context [(?a <=? ?b)%N] => destruct (N.leb_spec a b)
         | |- context [(?a =? ?b)%N] => destruct (N.eqb_spec a b)
         | H : context [(?a <=? ?b)%N] |- _ => destruct (N.leb_spec a b)
         | H : context [(?a =? ?b)%N] |- _ => destruct (N.eqb_spec a b)
         end; cbn in *; try done; try lia.
Qed.

(** X6: inside an array the strings are not looked at for the enum
    sentinel: every string of an array of strings is written as its quoted
    literal, so an enum made with [enum] keeps its prefix and its quotes
    there. *)
Theorem array_of_strings_is_quoted (ss : list (list N)) (id : list N) :
  enum_identifier id ->
  convertToGqlArg (VArr (map VStr ss))
  = Some (js "[" ++ join (js ",") (map QuoteJSONString ss) ++ js "]")
  /\ convertToGqlArg (VArr [enum (VStr id)])
     = Some (js "[" ++ [34%N] ++ ENUM_PREFIX ++ id ++ [34%N] ++ js "]")
  /\ convertToGqlArg (enum (VStr id)) = Some id.
Proof.
  intros [Hne Hid]. split; [| split].
  - cbn [convertToGqlArg JSON_stringify]. rewrite map_map. reflexivity.
  - assert (He : enum (VStr id) = VStr (ENUM_PREFIX ++ id)) by (by destruct id).
    rewrite He.
    change (convertToGqlArg (VArr [VStr (ENUM_PREFIX ++ id)]))
      with (Some (js "[" ++ QuoteJSONString (ENUM_PREFIX ++ id) ++ js "]")).
    unfold QuoteJSONString. rewrite quote_chars_ENUM_PREFIX.
    rewrite quote_chars_plain.
    + by rewrite <- !app_assoc.
    + eapply Forall_impl; [exact Hid |]. intros c. apply is_enum_char_plain.
  - assert (He : enum (VStr id) = VStr (ENUM_PREFIX ++ id)) by (by destruct id).
    rewrite He. cbn [convertToGqlArg]. f_equal.
    by apply (match_ENUM_REGEX_group _ id).
Qed.

Lemma array_of_strings_is_quoted_witness :
  convertToGqlArg (VArr [enum (VStr (js "ACTIVE"))])
  = Some (js "[" ++ [34%N] ++ js "__ENUM__::ACTIVE" ++ [34%N] ++ js "]").
Proof.
  refine (proj1 (proj2 (array_of_strings_is_quoted [] (js "ACTIVE") _))).
  split; [discriminate |].
  repeat (constructor; [reflexivity |]). constructor.
Defined.

End EncoderMappings.

Section EnumAndTag.

Lemma ENUM_PREFIX_not_identifier t : ~ enum_identifier (ENUM_PREFIX ++ t).
Proof.
  intros [_ H]. apply Forall_app in H as [H _].
  do 8 apply Forall_inv_tail in H. apply Forall_inv in H. discriminate.
Qed.

(** X7: [enum] leaves a falsy value as it is (the empty string stays the
    empty string and is encoded as an empty quoted literal), and marks a
    truthy one with one more prefix each time it is applied; a value marked
    twice is no enum for the encoder, which writes it as a quoted string
    with both prefixes. *)
Theorem enum_of_falsy_and_twice (v : value) :
  (truthy v = false -> enum v = v)
  /\ toGqlArg (enum (VStr [])) no_opts = [34; 34]%N
  /\ (truthy v = true ->
      enum v = VStr (ENUM_PREFIX ++ ToString v)
      /\ enum (enum v) = VStr (ENUM_PREFIX ++ ENUM_PREFIX ++ ToString v)
      /\ convertToGqlArg (enum (enum v))
         = Some ([34%N] ++ ENUM_PREFIX ++ ENUM_PREFIX ++ quote_chars (ToString v)
                 ++ [34%N])).
Proof.
  split; [| split; [reflexivity |]].
  - intros H. unfold enum. by rewrite H.
  - intros H.
    assert (H1 : enum v = VStr (ENUM_PREFIX ++ ToString v))
      by (unfold enum; by rewrite H).
    assert (H2 : enum (enum v) = VStr (ENUM_PREFIX ++ ENUM_PREFIX ++ ToString v))
      by (by rewrite H1).
    split; [done |]. split; [done |]. rewrite H2. cbn [convertToGqlArg].
    rewrite match_ENUM_REGEX_none.
    + unfold QuoteJSONString. rewrite !quote_chars_ENUM_PREFIX.
      by rewrite <- !app_assoc.
    + intros (id & Heq & Hid). apply app_inv_head in Heq as <-.
      by apply ENUM_PREFIX_not_identifier in Hid.
Qed.

Lemma enum_of_falsy_and_twice_witness :
  enum (VNum (NInt 0)) = VNum (NInt 0)
  /\ convertToGqlArg (enum (enum (VStr (js "ON"))))
     = Some ([34%N] ++ js "__ENUM__::__ENUM__::ON" ++ [34%N]).
Proof.
  split.
  - exact (proj1 (enum_of_falsy_and_twice (VNum (NInt 0))) eq_refl).
  - exact (proj2 (proj2 (proj2 (proj2 (enum_of_falsy_and_twice (VStr (js "ON"))))
                   eq_refl))).
Defined.

Lemma tag_loop_surplus strings : forall out prev args extra,
  (length strings <= length args)%nat ->
  tag_loop out prev strings (args ++ extra) = tag_loop out prev strings args.
Proof.
  induction strings as [|s strings IH]; intros out prev args extra Hlen; [done |].
  destruct args as [|a args]; cbn [length] in Hlen; [lia |].
  rewrite !tag_loop_step. cbn [app head tail]. apply IH. lia.
Qed.

Lemma tag_loop_missing strings : forall out prev args,
  tag_loop out prev strings (args ++ [VUndefined]) = tag_loop out prev strings args.
Proof.
  induction strings as [|s strings IH]; intros out prev args; [done |].
  rewrite !tag_loop_step. destruct args as [|a args]; cbn [app head tail].
  - reflexivity.
  - apply IH.
Qed.

(** X8: [tag] reads one value for each slot and no more: values beyond the
    last slot change nothing, and a slot that has no value is filled as if
    the value were [undefined]. *)
Theorem tag_reads_one_value_per_slot (strings : list (list N))
    (args extra : list value) :
  (length strings <= S (length args))%nat ->
  tag strings (args ++ extra) = tag strings args
  /\ (forall fewer, tag strings (fewer ++ [VUndefined]) = tag strings fewer).
Proof.
  intros Hlen. destruct strings as [|s0 rest]; [done |].
  cbn [tag length] in *. split.
  - f_equal. apply tag_loop_surplus. lia.
  - intros fewer. f_equal. apply tag_loop_missing.
Qed.

Lemma tag_reads_one_value_per_slot_witness :
  tag [js "q(id: "; js ") { name }"] [VNum (NInt 5); VStr (js "unused")]
  = Some (js "q(id: 5) { name }").
Proof.
  refine (eq_trans
            (proj1 (tag_reads_one_value_per_slot [js "q(id: "; js ") { name }"]
                      [VNum (NInt 5)] [VStr (js "unused")] _)) _).
  - cbn [length]. lia.
  - reflexivity.
Defined.






End EnumAndTag.

(** ** More on execution *)

Section ClientExtras.

Context {Schema Document Ctx RawError : Type}.
Implicit Types (this : @Gql Schema RawError)
  (env : @Collaborators Schema Document Ctx RawError) (w : World)
  (c : Ctx) (o : ExecOptions).

(** The local path rejects with the raw errors and the merged fields. *)
Lemma execGraphql_rejects this env q c vars name (errs : list RawError) :
  errors (local_result this env q c vars name) = Some errs -> errs <> [] ->
  _execGraphql this env q c vars name
  = Rejected (GraphqlError (graphql_error_message name) errs
                (let merged :=
                   fold_left (fun target error =>
                                let error := formatError this error in
                                Object_assign target (fields error)) errs ∅ in
                 if (size merged =? 0)%nat then UNKNOWN_ERROR else merged)).
Proof.
  intros Hres Hne. unfold _execGraphql. unfold local_result in Hres.
  cbv zeta. rewrite Hres. by destruct errs.
Qed.

(** X10: a text the parser refuses is never validated or executed: the
    local path fails with a [GraphqlError] that carries the syntax error
    alone, names the schema in its message, and has the fields the
    formatter gives for that error, or the [global] entry when it gives
    none. *)
Theorem syntax_error_is_a_GraphqlError this env q c vars name (e : RawError) :
  parse env q = inl e ->
  _execGraphql this env q c vars name
  = Rejected (GraphqlError
                (js "[schema:"
                 ++ (if given name then default [] name else js "default")
                 ++ js "] Error in graphQL api")
                [e]
                (match fields (formatError this e) with
                 | Some f => if decide (f = ∅) then UNKNOWN_ERROR else f
                 | None => UNKNOWN_ERROR
                 end)).
Proof.
  intros Hp.
  assert (Hres : errors (local_result this env q c vars name) = Some [e]).
  { unfold local_result, graphql. by rewrite Hp. }
  rewrite (execGraphql_rejects _ _ _ _ _ _ _ Hres) by done.
  unfold graphql_error_message. do 2 f_equal. cbv zeta. cbn [fold_left].
  destruct (fields (formatError this e)) as [f|]; cbn [Object_assign].
  - rewrite (right_id_L ∅ (∪)).
    destruct (decide (f = ∅)) as [-> | Hne]; [done |].
    destruct (size f =? 0)%nat eqn:Hs; [| done].
    apply Nat.eqb_eq, map_size_empty_iff in Hs. done.
  - done.
Qed.

(** X11: validation is a gate in front of the engine.  With
    [validateGraphql] on, a document in which the validator finds errors is
    not executed: the local path fails with a [GraphqlError] that carries
    the validation errors, whatever the engine would answer.  With it off,
    the validator is not asked and the result is the engine's. *)
Theorem validation_errors_reject_before_execution this env q c vars name
    (document : Document) :
  parse env q = inr document ->
  validate env (if given name then schema this !! default [] name
                else defaultSchema this) document <> [] ->
  (validateGraphql this = true ->
   exists flds,
     _execGraphql this env q c vars name
     = Rejected (GraphqlError (graphql_error_message name)
                   (validate env (if given name then schema this !! default [] name
                                  else defaultSchema this) document)
                   flds))
  /\ (validateGraphql this = false ->
      local_result this env q c vars name
      = execute env (if given name then schema this !! default [] name
                     else defaultSchema this)
          document VNull c (default (VObj []) vars)).
Proof.
  intros Hp Hne. split; intros Hv.
  - assert (Hres : errors (local_result this env q c vars name)
                   = Some (validate env (if given name
                                         then schema this !! default [] name
                                         else defaultSchema this) document)).
    { unfold local_result, graphql. rewrite Hp, Hv.
      by destruct (validate env _ document). }
    rewrite (execGraphql_rejects _ _ _ _ _ _ _ Hres Hne). eauto.
  - unfold local_result, graphql. by rewrite Hp, Hv.
Qed.

(** X12: the remote path resolves exactly when the status is 200, the body
    parses to a truthy value and that value has no [errors] (none, or an
    empty list), and then it resolves with the parsed body whole; every
    failure is an [ApiError], which carries [errors] only when the status
    is 200; any other status fails whatever the body says. *)
Theorem execApi_outcomes this env (api : ApiConfig) q :
  let response := Connect_post env api q in
  let result := Str_tryParseJson env (body response) in
  (forall r, _execApi this env api q = Resolved r <->
             statusCode response = 200%Z /\ r = result /\ truthy result = true
             /\ _isEmpty (get_property result (js "errors")) = true)
  /\ (forall e, _execApi this env api q = Rejected e ->
        exists msg errs, e = ApiError msg errs
          /\ (forall v, errs = Some v ->
                statusCode response = 200%Z
                /\ v = get_property result (js "errors")
                /\ _isEmpty v = false))
  /\ (statusCode response <> 200%Z ->
      exists text, _execApi this env api q
                   = Rejected (ApiError
                       (number_to_string (NInt (statusCode response))
                        ++ js ", " ++ text) None)).
Proof.
  cbv zeta. unfold _execApi. cbv zeta.
  destruct (Z.eqb_spec (statusCode (Connect_post env api q)) 200) as [Hs | Hs];
    cbn [negb].
  - destruct (truthy (Str_tryParseJson env (body (Connect_post env api q))))
      eqn:Ht; cbn [negb].
    + destruct (_isEmpty (get_property _ (js "errors"))) eqn:He; cbn [negb].
      * split; [| split]; [| done | done].
        intros r. split; [by intros [= <-] | by intros (_ & -> & _)].
      * split; [| split]; [| | done].
        -- intros r. split; [done | intros (_ & _ & _ & ?); done].
        -- intros e [= <-]. eexists _, _. split; [done |].
           by intros v [= <-].
    + split; [| split]; [| | done].
      * intros r. split; [done | intros (_ & _ & ? & _); done].
      * intros e [= <-]. eexists _, _. split; [done |]. done.
  - split; [| split].
    + intros r. split; [done | intros (? & _); done].
    + intros e [= <-]. eexists _, _. split; [done |]. done.
    + intros _. eexists. reflexivity.
Qed.

Lemma wrapped_mentions_keyword q :
  test OPERATION_KEYWORD (js "query { " ++ q ++ js " }") = true.
Proof.
  apply test_OPERATION_KEYWORD. left.
  exists [], (js " { " ++ q ++ js " }"). split; [reflexivity | constructor].
Qed.

Lemma normalized_normalized q : normalized (normalized q) = normalized q.
Proof.
  unfold normalized.
  destruct (negb (test OPERATION_KEYWORD q) && test SELECTION_START q) eqn:E.
  - by rewrite wrapped_mentions_keyword.
  - by rewrite E.
Qed.

(** X13: wrapping is done once: a text that [exec] has wrapped is not
    wrapped again, so a call with the wrapped text has the same outcome and
    the same effect as the call with the bare text. *)
Theorem exec_wraps_once this env w q c o :
  normalized (normalized q) = normalized q
  /\ exec this env w (normalized q) c o = exec this env w q c o.
Proof.
  split; [apply normalized_normalized |].
  destruct (truthy (cache_lookup this w o)) eqn:Hhit.
  - by rewrite !exec_hit.
  - rewrite !exec_miss by done. by rewrite normalized_normalized.
Qed.

(** X14: a call changes the cache under its own key at most, and executes
    one text at most.  Every entry of the cache after the call was there
    before, or is the resolved result of this call under its key, with the
    [ttl] given or one day (86400000 ms) when none is given. *)
Theorem exec_touches_only_its_key this env w q c o (out : outcome value) w' :
  exec this env w q c o = (out, w') ->
  (forall k, cache_key o <> Some k -> store w' !! k = store w !! k)
  /\ (executed w' = executed w \/ executed w' = normalized q :: executed w)
  /\ (forall k v ttl, store w' !! k = Some (v, ttl) ->
        store w !! k = Some (v, ttl)
        \/ (cache_key o = Some k /\ cache this = true /\ out = Resolved v
            /\ ttl = default 86400000%Z (cache_ttl o))).
Proof.
  intros H. destruct (truthy (cache_lookup this w o)) eqn:Hhit.
  { rewrite exec_hit in H by done. injection H as <- <-. auto. }
  rewrite exec_miss in H by done.
  destruct (underlying this env (normalized q) c o) as [r | e].
  2: { injection H as <- <-. cbn [store executed]. auto. }
  injection H as <- <-. cbn [store executed].
  destruct (cache_key o) as [key|] eqn:Hkey; cbn [given text_truthy andb];
    [| auto].
  destruct key as [|ch key]; cbn [text_truthy andb]; [auto |].
  destruct (cache this); cbn [andb]; [| auto].
  cbn [default from_option id]. split; [| split; [auto |]].
  - intros k Hk. apply lookup_insert_ne. congruence.
  - intros k v ttl. rewrite lookup_insert.
    destruct (decide (ch :: key = k)) as [<- | Hne]; [| auto].
    intros [= <- <-]. right. done.
Qed.

(** X15: with a cache and a non-empty key, a call that resolves leaves the
    value it returned in the cache under that key, whether it was served
    from the cache or executed, and also when the value is falsy. *)
Theorem exec_resolved_value_is_cached this env w q c o key (v : value) w' :
  exec this env w q c o = (Resolved v, w') ->
  cache this = true -> cache_key o = Some key -> key <> [] ->
  exists ttl, store w' !! key = Some (v, ttl).
Proof.
  intros H Hc Hk Hne.
  assert (Hg : given (cache_key o) && cache this = true).
  { rewrite Hk, Hc. by destruct key. }
  destruct (truthy (cache_lookup this w o)) eqn:Hhit.
  - rewrite exec_hit in H by done. injection H as Hv <-.
    unfold cache_lookup in *. rewrite Hg, Hk in *. cbn [default from_option id] in *.
    destruct (store w !! key) as [[v0 t0]|]; [| by subst v].
    cbn in Hv. subst v0. eauto.
  - rewrite exec_miss in H by done.
    destruct (underlying this env (normalized q) c o) as [r | e]; [| done].
    injection H as <- <-. cbn [store]. rewrite Hg, Hk.
    cbn [default from_option id]. rewrite lookup_insert_eq. eauto.
Qed.

(** X16: a client uses one path only.  With an [api] the outcome does not
    depend on the parser, the validator or the engine of [graphql]; without
    one it does not depend on the HTTP client or the JSON parser. *)
Theorem exec_uses_one_path this env env' w q c o :
  (is_Some (api this) ->
   Connect_post env = Connect_post env' ->
   Str_tryParseJson env = Str_tryParseJson env' ->
   exec this env w q c o = exec this env' w q c o)
  /\ (api this = None ->
      parse env = parse env' -> validate env = validate env' ->
      execute env = execute env' ->
      exec this env w q c o = exec this env' w q c o).
Proof.
  split.
  - intros [a Ha] Hp Hj. unfold exec, _execApi. rewrite Ha, Hp, Hj. reflexivity.
  - intros Ha Hp Hv He. unfold exec, _execGraphql, graphql.
    rewrite Ha, Hp, Hv, He. reflexivity.
Qed.

(** X17: a schema name that is given and is not one of the schemas does
    not fall back on the default schema: the engine is run without a
    schema.  An empty name is taken as no name and selects the default
    schema. *)
Theorem unknown_schema_name_gives_no_schema this env q c vars name
    (document : Document) :
  parse env q = inr document -> validateGraphql this = false ->
  (name <> [] -> schema this !! name = None ->
   local_result this env q c vars (Some name)
   = execute env None document VNull c (default (VObj []) vars))
  /\ local_result this env q c vars (Some [])
     = execute env (defaultSchema this) document VNull c (default (VObj []) vars)
  /\ local_result this env q c vars None
     = execute env (defaultSchema this) document VNull c (default (VObj []) vars).
Proof.
  intros Hp Hv. unfold local_result, graphql. rewrite Hp, Hv.
  split; [| by split].
  intros Hne Hs. destruct name; [done |]. cbn [given text_truthy default from_option id].
  by rewrite Hs.
Qed.

(** X18: no field is lost and none is made up: when some raw error has a
    field, the keys of the map thrown are exactly the keys some formatted
    error has; and a single raw error whose formatted error has fields is
    thrown with exactly these fields. *)
Theorem thrown_fields_are_the_formatted_fields this env q c vars name
    (errs : list RawError) :
  errors (local_result this env q c vars name) = Some errs ->
  (exists e k, e ∈ errs /\ is_Some (contributes this e k)) ->
  exists msg flds,
    _execGraphql this env q c vars name = Rejected (GraphqlError msg errs flds)
    /\ (forall k, is_Some (flds !! k) <->
                  exists e, e ∈ errs /\ is_Some (contributes this e k))
    /\ (forall e f, errs = [e] -> fields (formatError this e) = Some f -> flds = f).
Proof.
  intros Hres (e0 & k0 & He0 & Hk0).
  assert (Hne : errs <> []) by (intros ->; by apply not_elem_of_nil in He0).
  rewrite (execGraphql_rejects _ _ _ _ _ _ _ Hres Hne). cbv zeta.
  set (merged := fold_left _ errs ∅).
  assert (Hm : forall k, merged !! k = last_write this errs k).
  { intros k. unfold merged. rewrite merged_fields_lookup, lookup_empty.
    by destruct (last_write this errs k). }
  assert (Hsz : (size merged =? 0)%nat = false).
  { apply Nat.eqb_neq. rewrite map_size_empty_iff. intros Hempty.
    apply (last_write_Some this errs e0 k0 He0) in Hk0.
    rewrite <- Hm, Hempty, lookup_empty in Hk0. by destruct Hk0. }
  rewrite Hsz. eexists _, _. split; [reflexivity |]. split.
  - intros k. rewrite Hm. split.
    + intros [x Hx]. unfold last_write in Hx. apply last_Some_elem_of in Hx.
      apply list_elem_of_omap in Hx as (e & He & Hc). exists e. by rewrite Hc.
    + intros (e & He & Hc). by apply (last_write_Some this errs e k).
  - intros e f -> Hf. apply map_eq. intros k. rewrite Hm.
    unfold last_write, contributes. cbn [omap list_omap]. rewrite Hf.
    cbn [mbind option_bind]. by destruct (f !! k).
Qed.

Lemma own_properties_single result :
  length (Object_keys result) = 1%nat ->
  exists k v, own_properties result = [(k, v)]
              /\ get_property result (default [] (Object_keys result !! 0%nat)) = v.
Proof.
  unfold Object_keys, get_property, obj_keys.
  destruct (own_properties result) as [|[k v] [|kv l]]; try done.
  intros _. exists k, v. split; [done |]. cbn [map fst lookup list_lookup].
  cbn [default from_option id]. rewrite obj_get_cons.
  by rewrite bool_decide_eq_true_2.
Qed.

(** X19: [get] adds no effect to that of [exec], and fails on its own only
    with a [TypeError], only when the result has exactly one property and
    its value is truthy and not an object (a number, a string or [true]):
    for an object, an array or a falsy value under the only key it never
    fails. *)
Theorem get_fails_only_on_truthy_scalar this env w q c o (result : value) w' :
  exec this env w q c o = (Resolved result, w') ->
  snd (get this env w q c o) = w'
  /\ (forall e, fst (get this env w q c o) = Rejected e ->
        e = TypeError
        /\ exists k v, own_properties result = [(k, v)]
                       /\ truthy v = true /\ is_primitive v = true).
Proof.
  intros H. unfold get. rewrite H.
  destruct (truthy result); cbn [negb]; [| by split].
  destruct (length (Object_keys result) =? 1)%nat eqn:Hlen; cbn [negb];
    [| by split].
  apply Nat.eqb_eq, own_properties_single in Hlen as (k & v & Hown & ->).
  destruct (truthy v) eqn:Hv; [| by split].
  destruct v as [| |b|n|s|items|props]; cbn [has_property]; try discriminate.
  1-3: split; [done |]; intros e [= <-]; split; [done |];
       exists k; eexists; by rewrite Hown.
  all: destruct (bool_decide _); [destruct (_ =? 1)%nat |]; by split.
Qed.

End ClientExtras.

(** *** The theorems above at the clients of the examples *)

Lemma syntax_error_is_a_GraphqlError_witness :
  _execGraphql (local_client no_fields false) (syntax_error_env (js "Syntax Error"))
    (js "query {") tt None None
  = Rejected (GraphqlError (js "[schema:default] Error in graphQL api")
                [js "Syntax Error"] UNKNOWN_ERROR).
Proof.
  exact (syntax_error_is_a_GraphqlError (local_client no_fields false)
           (syntax_error_env (js "Syntax Error")) (js "query {") tt None None
           (js "Syntax Error") eq_refl).
Defined.

Lemma validation_errors_reject_before_execution_witness :
  exists flds,
    _execGraphql
      {| api := None; schema := ∅; defaultSchema := Some tt; validateGraphql := true;
         formatError := fun e => {| fields := no_fields e |}; cache := false |}
      (validating_env [js "Unknown field"] (resolves_with user_data))
      (js "query { user { nme } }") tt None None
    = Rejected (GraphqlError (js "[schema:default] Error in graphQL api")
                  [js "Unknown field"] flds).
Proof.
  refine (proj1 (validation_errors_reject_before_execution
    {| api := None; schema := ∅; defaultSchema := Some tt; validateGraphql := true;
       formatError := fun e => {| fields := no_fields e |}; cache := false |}
    (validating_env [js "Unknown field"] (resolves_with user_data))
    (js "query { user { nme } }") tt None None tt eq_refl _) eq_refl).
  discriminate.
Defined.

Lemma execApi_outcomes_witness :
  (exists text,
     _execApi (remote_client false) (remote_env 500 user_data) example_api
       (js "query { user { id } }")
     = Rejected (ApiError (js "500" ++ js ", " ++ text) None))
  /\ _execApi (remote_client false) (remote_env 200 user_data) example_api
       (js "query { user { id } }")
     = Resolved user_data.
Proof.
  split.
  - refine (proj2 (proj2 (execApi_outcomes (remote_client false)
                            (remote_env 500 user_data) example_api
                            (js "query { user { id } }"))) _).
    discriminate.
  - apply (proj1 (execApi_outcomes (remote_client false)
                    (remote_env 200 user_data) example_api
                    (js "query { user { id } }"))).
    repeat split; reflexivity.
Defined.

Lemma exec_touches_only_its_key_witness :
  exists out w',
    exec (local_client no_fields true) (example_env (resolves_with user_data) VNull)
      cached_world (js "user { id }") tt (exec_options (Some (js "other")))
    = (out, w')
    /\ store w' !! js "k" = Some (user_data, 1000%Z).
Proof.
  destruct (exec (local_client no_fields true)
              (example_env (resolves_with user_data) VNull)
              cached_world (js "user { id }") tt (exec_options (Some (js "other"))))
    as [out w'] eqn:E.
  exists out, w'. split; [reflexivity |].
  destruct (exec_touches_only_its_key _ _ _ _ _ _ _ _ E) as (Hframe & _ & _).
  rewrite (Hframe (js "k")); [reflexivity | discriminate].
Defined.

Lemma exec_resolved_value_is_cached_witness :
  exists w' ttl,
    exec (local_client no_fields true) (example_env (resolves_with VNull) VNull)
      empty_world (js "user { id }") tt (exec_options (Some (js "k")))
    = (Resolved VNull, w')
    /\ store w' !! js "k" = Some (VNull, ttl).
Proof.
  destruct (exec (local_client no_fields true)
              (example_env (resolves_with VNull) VNull)
              empty_world (js "user { id }") tt (exec_options (Some (js "k"))))
    as [out w'] eqn:E.
  assert (Hout : out = Resolved VNull)
    by (vm_compute in E; injection E as <- _; reflexivity).
  subst out.
  destruct (exec_resolved_value_is_cached _ _ _ _ _ _ (js "k") _ _ E
              eq_refl eq_refl ltac:(discriminate)) as [ttl Httl].
  by exists w', ttl.
Defined.

Lemma exec_uses_one_path_witness :
  exec (remote_client false) (remote_env 200 user_data) empty_world
    (js "user { id }") tt (exec_options None)
  = exec (remote_client false) (example_env (fails_with [js "boom"]) user_data)
      empty_world (js "user { id }") tt (exec_options None).
Proof.
  apply (proj1 (exec_uses_one_path (remote_client false)
                  (remote_env 200 user_data)
                  (example_env (fails_with [js "boom"]) user_data)
                  empty_world (js "user { id }") tt (exec_options None)));
    [by eexists | reflexivity | reflexivity].
Defined.

Lemma unknown_schema_name_gives_no_schema_witness :
  local_result (local_client no_fields false)
    (example_env (resolves_with user_data) VNull) (js "query { user { id } }") tt
    None (Some (js "admin"))
  = execute (example_env (resolves_with user_data) VNull) None tt VNull tt (VObj []).
Proof.
  refine (proj1 (unknown_schema_name_gives_no_schema
                   (local_client no_fields false)
                   (example_env (resolves_with user_data) VNull)
                   (js "query { user { id } }") tt None (js "admin") tt
                   eq_refl eq_refl) _ _).
  - discriminate.
  - reflexivity.
Defined.

Lemma thrown_fields_are_the_formatted_fields_witness :
  exists msg flds,
    _execGraphql (local_client email_fields false)
      (example_env (fails_with [js "other"; js "email"]) VNull)
      (js "query { user { id } }") tt None None
    = Rejected (GraphqlError msg [js "other"; js "email"] flds)
    /\ is_Some (flds !! js "email")
    /\ flds !! js "global" = None.
Proof.
  destruct (thrown_fields_are_the_formatted_fields
              (local_client email_fields false)
              (example_env (fails_with [js "other"; js "email"]) VNull)
              (js "query { user { id } }") tt None None
              [js "other"; js "email"] eq_refl)
    as (msg & flds & Heq & Hkeys & _).
  { exists (js "email"), (js "email"). split; [right; left |].
    exists email_error. reflexivity. }
  exists msg, flds. split; [exact Heq |]. split.
  - apply Hkeys. exists (js "email"). split; [right; left |].
    exists email_error. reflexivity.
  - vm_compute in Heq. injection Heq as _ <-. reflexivity.
Defined.

Lemma get_fails_only_on_truthy_scalar_witness :
  snd (get (local_client no_fields false)
         (example_env (resolves_with user_data) VNull)
         empty_world (js "user { id }") tt (exec_options None))
  = {| store := ∅; executed := [js "query { user { id } }"] |}.
Proof.
  exact (proj1 (get_fails_only_on_truthy_scalar (local_client no_fields false)
                  (example_env (resolves_with user_data) VNull)
                  empty_world (js "user { id }") tt (exec_options None)
                  user_data _ eq_refl)).
Defined.

Lemma get_unwraps_witness :
  get (local_client no_fields false)
    (example_env (resolves_with
                    (VObj [(js "users", VObj [(js "nodes", VArr [VNum (NInt 1)])])]))
       VNull)
    empty_world (js "users { nodes { id } }") tt (exec_options None)
  = (Resolved (VArr [VNum (NInt 1)]),
     {| store := ∅; executed := [js "query { users { nodes { id } } }"] |}).
Proof.
  refine (proj1 (proj2 (proj2 (get_unwraps (local_client no_fields false)
    (example_env (resolves_with
                    (VObj [(js "users", VObj [(js "nodes", VArr [VNum (NInt 1)])])]))
       VNull)
    empty_world (js "users { nodes { id } }") tt (exec_options None) _ _ eq_refl)))
    (js "users") (VArr [VNum (NInt 1)]) eq_refl).
Defined.

Lemma exec_wraps_exactly_when_witness :
  mentions_operation_keyword (js "user { mutationCount }")
  /\ normalized (js "user { mutationCount }") = js "user { mutationCount }".
Proof.
  assert (H : mentions_operation_keyword (js "user { mutationCount }")).
  { right; left. exists (js "user { "), (js "Count }"). reflexivity. }
  split; [exact H |].
  exact (proj2 (exec_wraps_exactly_when (js "user { mutationCount }"))
           (or_intror H)).
Defined.

Section ConstructorFacts.

Context {Schema Document Ctx RawError Config : Type}.

(** X20: [api] takes precedence.  A client built from options with an
    [api] is a remote client: the schema compiler is not asked, and the
    options of the local path ([validateGraphql], [formatError]) and the
    formatter have no effect on what [exec] does.  The endpoint, headers
    and cookies given are kept, [null] included; those that are missing or
    [undefined] get [null], [{}] and [{}]. *)
Theorem constructor_api_takes_precedence
    (mk mk' : GqlOptions RawError Config -> gmap (list N) Schema * option Schema)
    (fmt fmt' : RawError -> @FormattedError)
    (opts opts' : GqlOptions RawError Config) (a : list (list N * value))
    (env : @Collaborators Schema Document Ctx RawError) (w : World) (q : list N)
    (c : Ctx) (o : ExecOptions) :
  opts_api opts = Some a -> opts_api opts' = Some a ->
  opts_cache opts' = opts_cache opts ->
  api (Gql_constructor mk fmt opts)
  = Some {| endpoint := defined_or VNull (obj_get (js "endpoint") a);
            headers := defined_or (VObj []) (obj_get (js "headers") a);
            cookies := defined_or (VObj []) (obj_get (js "cookies") a) |}
  /\ exec (Gql_constructor mk fmt opts) env w q c o
     = exec (Gql_constructor mk' fmt' opts') env w q c o
  /\ exec (Gql_constructor mk fmt opts) env w q c o
     = (let this := Gql_constructor mk fmt opts in
        if truthy (cache_lookup this w o) then (Resolved (cache_lookup this w o), w)
        else match _execApi this env (_defaults_api a) (normalized q) with
             | Rejected e =>
                 (Rejected e,
                  {| store := store w; executed := normalized q :: executed w |})
             | Resolved r =>
                 (Resolved r,
                  {| store := if given (cache_key o) && cache this
                              then <[default [] (cache_key o)
                                     := (r, default ONE_DAY (cache_ttl o))]> (store w)
                              else store w;
                     executed := normalized q :: executed w |})
             end).
Proof.
  intros Ha Ha' Hc. unfold Gql_constructor. rewrite Ha, Ha', Hc.
  split; [reflexivity |]. split; [reflexivity |].
  cbv zeta.
  destruct (truthy (cache_lookup _ w o)) eqn:Hhit.
  - by rewrite exec_hit.
  - by rewrite exec_miss.
Qed.

End ConstructorFacts.

Lemma constructor_api_takes_precedence_witness :
  api (Gql_constructor (Schema := unit) (fun _ => (∅, Some tt))
         (fun e => {| fields := no_fields e |}) remote_options)
  = Some {| endpoint := VStr (js "http://localhost/api"); headers := VObj [];
            cookies := VObj [] |}.
Proof.
  exact (proj1 (constructor_api_takes_precedence (Schema := unit) (Document := unit)
                  (Ctx := unit)
                  (fun _ => (∅, Some tt)) (fun _ => (∅, None))
                  (fun e => {| fields := no_fields e |})
                  (fun e => {| fields := no_fields e |})
                  remote_options remote_options _
                  (example_env (resolves_with user_data) VNull) empty_world
                  (js "user { id }") tt (exec_options None)
                  eq_refl eq_refl eq_refl)).
Defined.
